(** * gzsatellite: the tile loader (src/tileloader.cpp, gazebo_satellite/tileloader.h)

    A shallow embedding of [TileLoader]: the conversion from latitude and
    longitude to slippy-map tile coordinates, the cache file names, the URL
    template substitution, and the fetch-or-reuse loop of [start].

    Conventions.
    - [int] and [unsigned int] are 32 bits wide; a value is a [Z] and every
      operation writes its wrap-around out ([to_int], [to_unsigned]).
    - [double] is Rocq's primitive binary64 [float]: [+ - * /] and the
      comparisons are the IEEE 754 ones the compiled code runs.
    - What the C++ code takes from its platform (libm, [std::hash],
      [std::to_string(double)], the HTTP server) is a [Variable] of the
      section the model lives in; what it takes from its string library and
      its output streams is the class [Platform].
    - File system, network and error stream are one [World] record that the
      effectful operations thread explicitly. *)

From Stdlib Require Import ZArith Floats String Ascii List Lia Bool.
From Stdlib Require Import Decimal DecimalString DecimalZ.
From stdpp Require Import gmap strings.

Set Warnings "-inexact-float".
Local Open Scope Z_scope.

(* ===================================================================== *)
(** ** Results of a call *)
(* ===================================================================== *)

(** The exceptions the code raises: [std::invalid_argument] in
    [latLonToTileCoords], [std::out_of_range] from [std::string::replace],
    [boost::filesystem::filesystem_error] from [create_directories]. *)
Inductive exn : Type :=
| invalid_argument (what : string)
| out_of_range (what : string)
| filesystem_error (what : string).

(** How a call ends.  [Abort] is a failed [assert]; [Unspecified] is an end
    that the model leaves open; [OutOfFuel] is a loop that has not finished
    within the given number of iterations. *)
Inductive res (A : Type) : Type :=
| Ret (a : A)
| Throw (e : exn)
| Abort
| Unspecified
| OutOfFuel.

Arguments Ret {A} a.
Arguments Throw {A} e.
Arguments Abort {A}.
Arguments Unspecified {A}.
Arguments OutOfFuel {A}.

(** [res] is a monad; stdpp's [x ← m; k] sequences calls and passes the
    first abnormal end through. *)
#[global] Instance res_ret : MRet res := @Ret.

#[global] Instance res_bind : MBind res := fun A B k m =>
  match m with
  | Ret a => k a
  | Throw e => Throw e
  | Abort => Abort
  | Unspecified => Unspecified
  | OutOfFuel => OutOfFuel
  end.

(* ===================================================================== *)
(** ** 32-bit integers *)
(* ===================================================================== *)

Definition INT_MIN : Z := - 2 ^ 31.
Definition INT_MAX : Z := 2 ^ 31 - 1.

(** Conversion to [int]: reduction modulo 2^32 into [INT_MIN .. INT_MAX]. *)
Definition to_int (z : Z) : Z := (z + 2 ^ 31) mod 2 ^ 32 - 2 ^ 31.

(** Conversion to [unsigned int]: reduction modulo 2^32. *)
Definition to_unsigned (z : Z) : Z := z mod 2 ^ 32.

Definition int_add (a b : Z) : Z := to_int (a + b).
Definition int_sub (a b : Z) : Z := to_int (a - b).

(** [a << n] on [int].  The loader shifts by its zoom, which the constructor
    has checked to be at most 31; for a count of 32 or more C++ leaves the
    result open and the model gives the wrapped value. *)
Definition int_shl (a n : Z) : Z := to_int (Z.shiftl a n).

Definition is_int (z : Z) : Prop := INT_MIN <= z <= INT_MAX.

(* ===================================================================== *)
(** ** Doubles *)
(* ===================================================================== *)

Module Double.

(** An integer of at most 63 bits as a double (exact below 2^53). *)
Definition of_Z (z : Z) : float :=
  if z <? 0 then PrimFloat.opp (PrimFloat.of_uint63 (Uint63.of_Z (- z)))
  else PrimFloat.of_uint63 (Uint63.of_Z z).

(** The integer [m * 2^e], rounded down when [e < 0]. *)
Definition scale (m e : Z) : Z := Z.shiftl m e.

(** The largest integer not above a finite double. *)
Definition floorZ (x : float) : option Z :=
  match Prim2SF x with
  | S754_zero _ => Some 0
  | S754_finite s m e => Some (scale (if s then Z.neg m else Z.pos m) e)
  | S754_infinity _ | S754_nan => None
  end.

(** A finite double rounded toward zero. *)
Definition truncZ (x : float) : option Z :=
  match Prim2SF x with
  | S754_zero _ => Some 0
  | S754_finite s m e =>
      let a := scale (Z.pos m) e in Some (if s then - a else a)
  | S754_infinity _ | S754_nan => None
  end.

(** [std::floor]: a double with no fractional bits (and a zero, an infinity
    or a NaN) is returned as it is. *)
Definition floor (x : float) : float :=
  match Prim2SF x with
  | S754_finite s m e =>
      if 0 <=? e then x else of_Z (scale (if s then Z.neg m else Z.pos m) e)
  | _ => x
  end.

(** Conversion of a double to [int].  The value is truncated; beyond the
    range of [int] C++ leaves the result open, and the model returns what
    the x86-64 conversion instruction does, [INT_MIN]. *)
Definition to_int (x : float) : Z :=
  match truncZ x with
  | Some z => if (INT_MIN <=? z) && (z <=? INT_MAX) then z else INT_MIN
  | None => INT_MIN
  end.

Definition M_PI : float := 0x1.921fb54442d18p+1%float.

End Double.

(* ===================================================================== *)
(** ** Strings *)
(* ===================================================================== *)

(** [std::to_string] and [operator<<] on an integer: its decimal digits, with
    a leading minus sign when negative. *)
Definition to_string (z : Z) : string := NilZero.string_of_int (Z.to_int z).

(* ===================================================================== *)
(** ** Coordinate conversion *)
(* ===================================================================== *)

(** [(1 << zoom_) - 1], in [int]. *)
Definition maxTiles_of (zoom : Z) : Z := int_sub (int_shl 1 zoom) 1.

(** [unsigned int n = (1 << zoom)]. *)
Definition grid_width (zoom : Z) : Z := to_unsigned (int_shl 1 zoom).

Section Mapper.

(** [std::tan], [std::cos], [std::log] of the platform's libm, and
    [std::to_string(double)]. *)
Variables tan cos log : float -> float.
Variable to_string_double : float -> string.

Definition latLonToTileCoords (lat lon : float) (zoom : Z)
  : res (float * float) :=
  if 31 <? zoom then
    Throw (invalid_argument ("Zoom level " ++ to_string zoom ++ " too high"))
  else if (lat <? - 85.0511)%float || (85.0511 <? lat)%float then
    Throw (invalid_argument ("Latitude " ++ to_string_double lat ++ " invalid"))
  else if (lon <? Double.of_Z (-180))%float || (Double.of_Z 180 <? lon)%float then
    Throw (invalid_argument ("Longitude " ++ to_string_double lon ++ " invalid"))
  else
    let rho := (Double.M_PI / Double.of_Z 180)%float in
    let lat_rad := (lat * rho)%float in
    let n := grid_width zoom in
    let x := (Double.of_Z n * ((lon + Double.of_Z 180) / 360.0))%float in
    let y := (Double.of_Z n
              * (Double.of_Z 1
                 - (log (tan lat_rad + Double.of_Z 1 / cos lat_rad)
                    / Double.M_PI))
              / Double.of_Z 2)%float in
    Ret (x, y).

End Mapper.

(* ===================================================================== *)
(** ** Regular expression replacement *)
(* ===================================================================== *)

(** The three expressions the loader builds, such as
    [boost::regex("\\{x\\}", boost::regex::icase)], are a literal text
    compared without regard to case. *)
Record regex : Type := { literal : list ascii; icase : bool }.

Definition tolower (a : ascii) : ascii :=
  let n := N_of_ascii a in
  if ((65 <=? n) && (n <=? 90))%N then ascii_of_N (n + 32) else a.

Definition char_matches (ex : regex) (pat c : ascii) : bool :=
  if icase ex then bool_decide (tolower pat = tolower c)
  else bool_decide (pat = c).

(** The expression matches a prefix of [range]. *)
Fixpoint matches_here (ex : regex) (pat range : list ascii) : bool :=
  match pat, range with
  | [], _ => true
  | _ :: _, [] => false
  | p :: pat', c :: range' => char_matches ex p c && matches_here ex pat' range'
  end.

(** [boost::regex_search(start, end, what, ex)] on the characters between the
    two iterators: the offset of the leftmost match from [start], which is
    what [what.position()] returns. *)
Fixpoint regex_search (ex : regex) (range : list ascii) : option nat :=
  match range with
  | [] => None
  | _ :: range' =>
      if matches_here ex (literal ex) range then Some 0%nat
      else S <$> regex_search ex range'
  end.

Definition NUL : ascii := Ascii.zero.

(** [str.replace(pos, len, replace)] on the value of the string; the caller
    has checked [pos <= size]. *)
Definition string_replace (str : list ascii) (pos len : nat) (replace : list ascii)
  : list ascii :=
  take pos str ++ replace ++ drop (pos + len) str.

(** What the loader takes from the C++ library it is built with.
    - [capacity s]: the capacity of the [std::string] that holds the text
      [s] when [replaceRegex] is entered (libstdc++ gives a copy of a short
      text 15 characters, of a longer one its size).  The model never takes
      it to be less than the size.
    - [freed s k b]: the byte a search finds at offset [k] of a block that the
      string has given back, when the string holds [s] and the byte was [b]
      when the block was given back.  Such a read is undefined in C++; the
      compiled code does read, and an allocator may have written into the
      block in between.
    - [opens path]: the platform lets the output stream for [path] open and
      its write succeed (permissions, room on the disk). *)
Class Platform : Type := {
  capacity : list ascii -> nat;
  freed : list ascii -> nat -> ascii -> ascii;
  opens : string -> bool
}.

(** The body of [replaceRegex]'s loop.  [str.begin()] and [str.end()] are
    taken once, before the loop, and [start] only ever moves forward inside
    that range; the state is
    - [str], the value of the string,
    - [buf], the bytes at the offsets [0 .. end) of the block both iterators
      point into ([length buf] is the size of the string at entry),
    - [cap], the capacity of the string at entry,
    - [start], as an offset into [buf],
    - [live], which holds as long as the string still lives in that block.
    A [replace] that fits the capacity is done in place: it leaves the new
    value, its terminating NUL and, behind that, the bytes that were there
    before.  A [replace] that does not fit moves the string to a new block
    and gives the old one back; the iterators stay behind, and what a later
    search finds through them is what [freed] says. *)
Fixpoint replaceRegex_loop {P : Platform} (fuel : nat) (ex : regex)
    (replace : list ascii) (str buf : list ascii) (cap start : nat)
    (live : bool) (count : Z) : res (list ascii * Z) :=
  match fuel with
  | O => OutOfFuel
  | S fuel' =>
      let range := if live then buf else imap (freed str) buf in
      match regex_search ex (drop start range) with
      | None => Ret (str, count)
      | Some position =>
          let len := length (literal ex) in
          if bool_decide (length str < position)%nat then
            Throw (out_of_range "basic_string::replace")
          else
            let str' := string_replace str position len replace in
            let fits :=
              live && ((length str' <=? length buf)%nat
                       || (length str' <=? cap)%nat) in
            let buf' :=
              if fits
              then take (length buf) (str' ++ NUL :: drop (S (length str')) buf)
              else buf in
            replaceRegex_loop fuel' ex replace str' buf' cap
              (start + position + len) fits (count + 1)
      end
  end.

(** [replaceRegex(ex, str, replace)]: the new value of [str] and the count
    returned.  Every round moves [start] forward, so [length str + 1] rounds
    are enough (lemma [replaceRegex_loop_returns]). *)
Definition replaceRegex {P : Platform} (ex : regex) (str replace : string)
  : res (string * Z) :=
  let s := list_ascii_of_string str in
  '(s', count) ← replaceRegex_loop (S (length s)) ex (list_ascii_of_string replace)
                   s s (capacity s) 0%nat true 0;
  mret (string_of_list_ascii s', count).

Definition placeholder (c : ascii) : regex :=
  {| literal := ["{"%char; c; "}"%char]; icase := true |}.

(* ===================================================================== *)
(** ** The loader object *)
(* ===================================================================== *)

Record MapTile : Type := mkMapTile {
  x_ : Z;
  y_ : Z;
  z_ : Z;
  path_ : string
}.

Record TileLoader : Type := mkTileLoader {
  latitude_ : float;
  longitude_ : float;
  zoom_ : Z;                  (* unsigned int *)
  blocks_ : Z;                (* int *)
  center_tile_x_ : Z;
  center_tile_y_ : Z;
  origin_offset_x_ : float;
  origin_offset_y_ : float;
  cache_path_ : string;
  object_uri_ : string;
  tiles_ : list MapTile
}.

Definition set_tiles (l : TileLoader) (ts : list MapTile) : TileLoader :=
  {| latitude_ := latitude_ l; longitude_ := longitude_ l; zoom_ := zoom_ l;
     blocks_ := blocks_ l; center_tile_x_ := center_tile_x_ l;
     center_tile_y_ := center_tile_y_ l;
     origin_offset_x_ := origin_offset_x_ l;
     origin_offset_y_ := origin_offset_y_ l;
     cache_path_ := cache_path_ l; object_uri_ := object_uri_ l;
     tiles_ := ts |}.

(** [tiles_.push_back(t)]. *)
Definition push_back (l : TileLoader) (t : MapTile) : TileLoader :=
  set_tiles l (tiles_ l ++ [t]).

(** [TileLoader::abort]: [tiles_.clear()]. *)
Definition abort (l : TileLoader) : TileLoader := set_tiles l [].

(** [TileLoader::maxTiles]. *)
Definition maxTiles (l : TileLoader) : Z := maxTiles_of (zoom_ l).

(** [TileLoader::uriForTile]: the three replacements in turn, each on the
    result of the one before. *)
Definition uriForTile {P : Platform} (l : TileLoader) (x y : Z) : res string :=
  '(object, _) ← replaceRegex (placeholder "x") (object_uri_ l) (to_string x);
  '(object, _) ← replaceRegex (placeholder "y") object (to_string y);
  '(object, _) ← replaceRegex (placeholder "z") object (to_string (zoom_ l));
  mret object.

(** [TileLoader::cachedNameForTile]. *)
Definition cachedNameForTile (x y z : Z) : string :=
  "x" ++ to_string x ++ "_y" ++ to_string y ++ "_z" ++ to_string z ++ ".jpg".

(** [operator/] of [boost::filesystem::path] with a relative, non-empty right
    operand: a separator is put in unless the left operand is empty or ends
    with one. *)
Definition path_append (p q : string) : string :=
  match rev (list_ascii_of_string p) with
  | [] => q
  | c :: _ => if bool_decide (c = "/"%char) then p ++ q else p ++ "/" ++ q
  end.

(** [TileLoader::cachedPathForTile], as a string. *)
Definition cachedPathForTile (l : TileLoader) (x y z : Z) : string :=
  path_append (cache_path_ l) (cachedNameForTile x y z).

(* ===================================================================== *)
(** ** The world: file system, network, error stream *)
(* ===================================================================== *)

Inductive node : Type :=
| Dir
| File (data : string).

(** What the loader does to its environment, in the order it does it. *)
Inductive event : Type :=
| ev_create_directories (p : string)
| ev_exists (p : string)                 (* fs::exists(p) *)
| ev_get (url : string)                  (* cpr::Get(url) *)
| ev_write (p : string) (data : string)  (* the write through the fstream *)
| ev_gzerr (msg : string).               (* a line on gzerr *)

Record World : Type := mkWorld {
  fs : gmap string node;
  trace : list event
}.

Definition emit (w : World) (evs : list event) : World :=
  {| fs := fs w; trace := trace w ++ evs |}.

(** [fs::exists]: something is at the path.  (The call throws when the
    status of the path cannot be read for another reason than its absence;
    the file system of the model has no such entry.) *)
Definition fs_exists (w : World) (p : string) : bool :=
  bool_decide (is_Some (fs w !! p)).

(** The stream [std::fstream imgout(path, std::ios::out | std::ios::binary)]
    opens: the directory [dir] the path lies in is there (an empty [dir] is
    the working directory) and the platform lets it. *)
Definition stream_opens {P : Platform} (m : gmap string node)
    (dir path : string) : bool :=
  (bool_decide (dir = ""%string)
   || match m !! dir with Some Dir => true | _ => false end)
  && opens path.

(** [imgout.write(data); imgout.close()] on that stream.  The code does not
    look at the state of the stream: one that has not opened writes
    nothing. *)
Definition fstream_write {P : Platform} (m : gmap string node)
    (dir path data : string) : gmap string node :=
  if stream_opens m dir path then <[path := File data]> m else m.

(** The response of [cpr::Get]. *)
Record Response : Type := mkResponse {
  status_code : Z;
  text : string;
  url : string
}.

(** The directories on the way to [p], [p] itself last:
    [./a/b] gives [.], [./a], [./a/b]. *)
Fixpoint ancestors (seen rest : list ascii) : list string :=
  match rest with
  | [] => match seen with [] => [] | _ => [string_of_list_ascii seen] end
  | c :: rest' =>
      (if bool_decide (c = "/"%char) && negb (bool_decide (seen = []))
       then [string_of_list_ascii seen] else [])
      ++ ancestors (seen ++ [c]) rest'
  end.

(** One directory of [create_directories]: kept when it is there, made when
    nothing is, an error when a file is in the way. *)
Definition make_dir (m : res (gmap string node)) (d : string)
  : res (gmap string node) :=
  m ← m;
  match m !! d with
  | None => mret (<[d := Dir]> m)
  | Some Dir => mret m
  | Some (File _) => Throw (filesystem_error d)
  end.

(** [fs::create_directories(p)]. *)
Definition create_directories (p : string) (w : World) : res unit * World :=
  let w1 := emit w [ev_create_directories p] in
  match foldl make_dir (Ret (fs w)) (ancestors [] (list_ascii_of_string p)) with
  | Ret m => (Ret tt, {| fs := m; trace := trace w1 |})
  | Throw e => (Throw e, w1)
  | _ => (Unspecified, w1)
  end.

Section Loader.

Context {P : Platform}.
Variables tan cos log : float -> float.
Variable to_string_double : float -> string.
(** [std::hash<std::string>], a [size_t]. *)
Variable hash_fn : string -> Z.
(** The tile server, as [cpr::Get] sees it during one run: the response to
    a URL, with status 0 standing for a failed transport. *)
Variable cpr_Get : string -> Response.

Local Abbreviation latLon := (latLonToTileCoords tan cos log to_string_double).

(** The constructor.  The failed [assert(blocks_ >= 0)] ends the process;
    an exception leaves no object, only the world as it then is. *)
Definition TileLoader_new (service : string) (latitude longitude : float)
    (zoom blocks : Z) (w : World) : res TileLoader * World :=
  let blocks_ := to_int blocks in
  if blocks_ <? 0 then (Abort, w)
  else
    let package_path := "."%string in
    let cache_path_ :=
      (package_path ++ "/gzsatellite/mapscache/" ++ to_string (hash_fn service))%string in
    match create_directories cache_path_ w with
    | (Ret _, w1) =>
        match latLon latitude longitude zoom with
        | Ret (x, y) =>
            let center_tile_x_ := Double.to_int (Double.floor x) in
            let center_tile_y_ := Double.to_int (Double.floor y) in
            (Ret {| latitude_ := latitude; longitude_ := longitude;
                    zoom_ := zoom; blocks_ := blocks_;
                    center_tile_x_ := center_tile_x_;
                    center_tile_y_ := center_tile_y_;
                    origin_offset_x_ := (x - Double.of_Z center_tile_x_)%float;
                    origin_offset_y_ := (y - Double.of_Z center_tile_y_)%float;
                    cache_path_ := cache_path_; object_uri_ := service;
                    tiles_ := [] |}, w1)
        | Throw e => (Throw e, w1)
        | Abort => (Abort, w1)
        | Unspecified => (Unspecified, w1)
        | OutOfFuel => (OutOfFuel, w1)
        end
    | (Throw e, w1) => (Throw e, w1)
    | (_, w1) => (Unspecified, w1)
    end.

(** [TileLoader::insideCentreTile]. *)
Definition insideCentreTile (l : TileLoader) (lat lon : float) : res bool :=
  '(x, y) ← latLon lat lon (zoom_ l);
  mret ((Double.floor x =? Double.of_Z (center_tile_x_ l))%float
        && (Double.floor y =? Double.of_Z (center_tile_y_ l))%float).

(** [TileLoader::zoomToResolution] and [TileLoader::resolution]. *)
Definition zoomToResolution (lat : float) (zoom : Z) : float :=
  let lat_rad := (lat * Double.M_PI / Double.of_Z 180)%float in
  (156543.034 * cos lat_rad / Double.of_Z (int_shl 1 zoom))%float.

Definition resolution (l : TileLoader) : float :=
  zoomToResolution (latitude_ l) (zoom_ l).

(** The tile [start] pushes for the index [(x, y)]. *)
Definition tile_at (l : TileLoader) (x y : Z) : MapTile :=
  mkMapTile x y (to_int (zoom_ l)) (cachedPathForTile l x y (to_int (zoom_ l))).

(** The line [start] writes on [gzerr] for a response. *)
Definition failure_message (r : Response) : string :=
  ("Failed loading " ++ url r ++ " with code " ++ to_string (status_code r))%string.

(** The body of [start]'s inner loop, for the index [(x, y)].  The code
    does not check that the stream opens or that the write succeeds: the
    tile is pushed in either case. *)
Definition load_tile (l : TileLoader) (x y : Z) (w : World)
  : res TileLoader * World :=
  let full_path := cachedPathForTile l x y (to_int (zoom_ l)) in
  let w1 := emit w [ev_exists full_path] in
  if fs_exists w full_path then
    (Ret (push_back l (tile_at l x y)), w1)
  else
    match uriForTile l x y with
    | Ret url =>
        let r := cpr_Get url in
        let w2 := emit w1 [ev_get url] in
        if status_code r =? 200 then
          (Ret (push_back l (tile_at l x y)),
           {| fs := fstream_write (fs w2) (cache_path_ l) full_path (text r);
              trace := trace w2 ++ [ev_write full_path (text r)] |})
        else
          (Ret l, emit w2 [ev_gzerr (failure_message r)])
    | Throw e => (Throw e, w1)
    | Abort => (Abort, w1)
    | Unspecified => (Unspecified, w1)
    | OutOfFuel => (OutOfFuel, w1)
    end.

(** [for (int x = ...; x <= max_x; x++)]: at most [fuel] rounds. *)
Fixpoint loop_x (fuel : nat) (l : TileLoader) (y x max_x : Z) (w : World)
  : res TileLoader * World :=
  match fuel with
  | O => (OutOfFuel, w)
  | S fuel' =>
      if x <=? max_x then
        match load_tile l x y w with
        | (Ret l', w') => loop_x fuel' l' y (int_add x 1) max_x w'
        | other => other
        end
      else (Ret l, w)
  end.

(** [for (int y = ...; y <= max_y; y++)]: at most [fuel] rounds, each inner
    loop with [fuel] rounds of its own. *)
Fixpoint loop_y (fuel inner : nat) (l : TileLoader) (y max_y min_x max_x : Z)
    (w : World) : res TileLoader * World :=
  match fuel with
  | O => (OutOfFuel, w)
  | S fuel' =>
      if y <=? max_y then
        match loop_x inner l y min_x max_x w with
        | (Ret l', w') => loop_y fuel' inner l' (int_add y 1) max_y min_x max_x w'
        | other => other
        end
      else (Ret l, w)
  end.

Definition min_x (l : TileLoader) : Z :=
  Z.max 0 (int_sub (center_tile_x_ l) (blocks_ l)).
Definition min_y (l : TileLoader) : Z :=
  Z.max 0 (int_sub (center_tile_y_ l) (blocks_ l)).
Definition max_x (l : TileLoader) : Z :=
  Z.min (maxTiles l) (int_add (center_tile_x_ l) (blocks_ l)).
Definition max_y (l : TileLoader) : Z :=
  Z.min (maxTiles l) (int_add (center_tile_y_ l) (blocks_ l)).

(** [TileLoader::start]. *)
Definition start (fuel : nat) (l : TileLoader) (w : World)
  : res TileLoader * World :=
  let l := abort l in
  loop_y fuel fuel l (min_y l) (max_y l) (min_x l) (max_x l) w.

End Loader.

(* ===================================================================== *)
(** ** Vocabulary of the statements *)
(* ===================================================================== *)

(** The test of the code, [v < lo || v > hi]: the double is below [lo] or
    above [hi].  A NaN is neither. *)
Definition beyond (lo hi v : float) : Prop :=
  (v <? lo)%float = true \/ (hi <? v)%float = true.

(** The inputs the checks of [latLonToTileCoords] refuse. *)
Definition refused (lat lon : float) (zoom : Z) : Prop :=
  31 < zoom
  \/ beyond (-85.0511)%float 85.0511%float lat
  \/ beyond (-180)%float 180%float lon.

(** The interval of the specification: [v] lies in [[lo, hi]]. *)
Definition within (lo hi v : float) : Prop :=
  (lo <=? v)%float = true /\ (v <=? hi)%float = true.

(** [v] lies outside [[lo, hi]]: it is not in it.  A NaN is outside every
    interval. *)
Definition outside (lo hi v : float) : Prop := ~ within lo hi v.

(** The inputs [latLonToTileCoords] is specified to reject. *)
Definition invalid_input (lat lon : float) (zoom : Z) : Prop :=
  31 < zoom
  \/ outside (-85.0511)%float 85.0511%float lat
  \/ outside (-180)%float 180%float lon.

Definition fails_invalid_argument {A : Type} (r : res A) : Prop :=
  exists what, r = Throw (invalid_argument what).

Definition returns {A : Type} (r : res A) : Prop := exists a, r = Ret a.

(** What [start] and [abort] are to leave alone: the configuration and the
    values derived from it by the constructor. *)
Definition config (l : TileLoader)
  : string * float * float * Z * Z * (Z * Z) * (float * float) * string :=
  (object_uri_ l, latitude_ l, longitude_ l, zoom_ l, blocks_ l,
   (center_tile_x_ l, center_tile_y_ l),
   (origin_offset_x_ l, origin_offset_y_ l), cache_path_ l).

(** No character of the string is an underscore. *)
Fixpoint plain (s : string) : Prop :=
  match s with
  | EmptyString => True
  | String c s' => c <> "_"%char /\ plain s'
  end.

(** The integers [lo, lo+1, .., hi], none when [hi < lo]. *)
Definition range (lo hi : Z) : list Z := seqZ lo (hi - lo + 1).

(** Index pairs [(x, y)] in row-major order: [y] outer, [x] inner. *)
Definition row_major (xs ys : list Z) : list (Z * Z) :=
  y ← ys; (fun x => (x, y)) <$> xs.

(** The paths probed with [fs::exists], in order. *)
Definition probes (t : list event) : list string :=
  omap (fun e => match e with ev_exists p => Some p | _ => None end) t.

(** The URLs requested, in order. *)
Definition requests (t : list event) : list string :=
  omap (fun e => match e with ev_get u => Some u | _ => None end) t.

Section LoaderSpec.

Context {P : Platform}.
Variable cpr_Get : string -> Response.

(** [load_tile] over a list of indices, stopping at the first abnormal end. *)
Fixpoint load_all (l : TileLoader) (idx : list (Z * Z)) (w : World)
  : res TileLoader * World :=
  match idx with
  | [] => (Ret l, w)
  | (x, y) :: rest =>
      match load_tile cpr_Get l x y w with
      | (Ret l', w') => load_all l' rest w'
      | other => other
      end
  end.

Definition path_of (l : TileLoader) (i : Z * Z) : string :=
  cachedPathForTile l i.1 i.2 (to_int (zoom_ l)).

(** The tile [start] pushes for an index. *)
Definition tile_of (l : TileLoader) (i : Z * Z) : MapTile :=
  tile_at l i.1 i.2.

(** The index has a file (or a directory) at its cached path in [w]. *)
Definition cached (l : TileLoader) (w : World) (i : Z * Z) : bool :=
  fs_exists w (path_of l i).

(** The response to the request for an index whose URL resolves. *)
Definition response_of (l : TileLoader) (i : Z * Z) : option Response :=
  match uriForTile l i.1 i.2 with
  | Ret u => Some (cpr_Get u)
  | _ => None
  end.

Definition fetched (l : TileLoader) (i : Z * Z) : bool :=
  match response_of l i with
  | Some r => status_code r =? 200
  | None => false
  end.

(** The stream for the file of the index opens, in the file system of
    [w]. *)
Definition opened (l : TileLoader) (w : World) (i : Z * Z) : bool :=
  stream_opens (fs w) (cache_path_ l) (path_of l i).

(** The index is resolved: found in the cache as it was in [w], or fetched
    with status 200. *)
Definition resolved (l : TileLoader) (w : World) (i : Z * Z) : bool :=
  cached l w i || fetched l i.

(** The grid [start] walks, from the bounds the code computes. *)
Definition grid (l : TileLoader) : list (Z * Z) :=
  row_major (range (min_x l) (max_x l)) (range (min_y l) (max_y l)).

(** The grid of the specification: the same bounds in unbounded integers. *)
Definition spec_grid (l : TileLoader) : list (Z * Z) :=
  let cx := center_tile_x_ l in
  let cy := center_tile_y_ l in
  let R := blocks_ l in
  let last := 2 ^ zoom_ l - 1 in
  row_major (range (Z.max 0 (cx - R)) (Z.min last (cx + R)))
            (range (Z.max 0 (cy - R)) (Z.min last (cy + R))).

(** The file written for an index: one when the index is not cached in [w],
    is fetched with status 200 and the stream opens. *)
Definition written (l : TileLoader) (w : World) (i : Z * Z)
    (m : gmap string node) : gmap string node :=
  if cached l w i then m
  else match response_of l i with
       | Some r => if status_code r =? 200
                   then fstream_write m (cache_path_ l) (path_of l i) (text r)
                   else m
       | None => m
       end.

(** What resolving one index adds to the trace. *)
Definition tile_events (l : TileLoader) (w : World) (i : Z * Z) : list event :=
  if cached l w i then [ev_exists (path_of l i)]
  else match uriForTile l i.1 i.2 with
       | Ret u =>
           let r := cpr_Get u in
           [ev_exists (path_of l i); ev_get u;
            if status_code r =? 200 then ev_write (path_of l i) (text r)
            else ev_gzerr (failure_message r)]
       | _ => [ev_exists (path_of l i)]
       end.

(** Every index of [idx] that is not cached in [w] has a URL. *)
Definition resolvable (l : TileLoader) (w : World) (idx : list (Z * Z)) : Prop :=
  forall i, i ∈ idx -> cached l w i = false -> returns (uriForTile l i.1 i.2).

(** Rounds that are enough for both loops of [start]. *)
Definition fuel_for (l : TileLoader) : nat :=
  S (Z.to_nat (Z.max (max_x l - min_x l + 1) (max_y l - min_y l + 1))).

(** The loops of [start] end: neither upper bound is [INT_MAX], at which
    [x <= max_x] holds for every [int]. *)
Definition loops_end (l : TileLoader) : Prop :=
  max_x l < INT_MAX /\ max_y l < INT_MAX.

(** No sum or difference of [start]'s bounds leaves the range of [int]. *)
Definition no_wrap (l : TileLoader) : Prop :=
  is_int (center_tile_x_ l - blocks_ l) /\ is_int (center_tile_x_ l + blocks_ l)
  /\ is_int (center_tile_y_ l - blocks_ l) /\ is_int (center_tile_y_ l + blocks_ l).

End LoaderSpec.

(** The character [c] does not occur in the string. *)
Fixpoint lacks (c : ascii) (s : string) : Prop :=
  match s with
  | EmptyString => True
  | String a s' => a <> c /\ lacks c s'
  end.

(** The expression [ex] matches nowhere in the string. *)
Definition matchless (ex : regex) (s : string) : Prop :=
  regex_search ex (list_ascii_of_string s) = None.

(** A placeholder as it may stand in a template: the letter in either case. *)
Definition occurrence (c' : ascii) : string :=
  String "{" (String c' (String "}" EmptyString)).

(** A call ends with a value or with an end the model leaves open: it
    throws nothing and needs no more fuel. *)
Definition settled {A : Type} (r : res A) : Prop :=
  returns r \/ r = Unspecified.

(** What a run of the loader may do to the world [w]: the trace grows at its
    end, the entries of the file system stay as they are, and a new entry is
    a file at a cache path of the loader that holds the text of a
    response. *)
Definition grows (cpr_Get : string -> Response) (l : TileLoader)
    (w w' : World) : Prop :=
  (exists t, trace w' = trace w ++ t)
  /\ (forall p n, fs w !! p = Some n -> fs w' !! p = Some n)
  /\ (forall p n, fs w' !! p = Some n ->
        fs w !! p = Some n
        \/ exists x y u, p = cachedPathForTile l x y (to_int (zoom_ l))
                         /\ n = File (text (cpr_Get u))).

(** A call that does not come back: it is still running when the fuel is
    used up, or has come to an end the model leaves open. *)
Definition stuck {A : Type} (r : res A) : Prop :=
  r = OutOfFuel \/ r = Unspecified.

(** A template cut into its texts and its placeholders. *)
Inductive piece : Type :=
| Text (s : string)
| Hole (c : ascii).

Fixpoint render (ps : list piece) : string :=
  match ps with
  | [] => ""
  | Text s :: ps' => s ++ render ps'
  | Hole c :: ps' => occurrence c ++ render ps'
  end.

(** The placeholder of the letter [c], in either case, filled in. *)
Definition fill (c : ascii) (r : string) (p : piece) : piece :=
  match p with
  | Hole d => if bool_decide (tolower d = c) then Text r else p
  | Text _ => p
  end.

(** The number of placeholders of the letter [c]. *)
Fixpoint holes (c : ascii) (ps : list piece) : nat :=
  match ps with
  | [] => 0
  | Hole d :: ps' => (if bool_decide (tolower d = c) then 1 else 0) + holes c ps'
  | Text _ :: ps' => holes c ps'
  end.

(** No text of the template holds an opening brace. *)
Definition braceless (ps : list piece) : Prop :=
  Forall (fun p => match p with Text s => lacks "{" s | Hole _ => True end) ps.

(** Loaders, worlds and servers the examples run on. *)
Definition loader (uri : string) (zoom cx cy R : Z) : TileLoader :=
  mkTileLoader 0 0 zoom R cx cy 0 0 "./gzsatellite/mapscache/7" uri [].

Definition empty_world : World := mkWorld ∅ [].

Definition not_found (u : string) : Response := mkResponse 404 "" u.

(** A server that has one tile only. *)
Definition one_tile (u : string) : Response :=
  if String.eqb u "http://x/2/1/1.png" then mkResponse 200 "jpeg" u
  else mkResponse 404 "" u.

(** A world that has the cache directory, with the tile (0, 0) of zoom 2
    in it. *)
Definition warm_world : World :=
  mkWorld (<["./gzsatellite/mapscache/7/x0_y0_z2.jpg"%string := File "old"]>
             (<["./gzsatellite/mapscache/7"%string := Dir]>
                (<["./gzsatellite/mapscache"%string := Dir]>
                   (<["./gzsatellite"%string := Dir]>
                      {[ "."%string := Dir ]}))))
          [].

(** libstdc++ as a plain build has it: a short string has room for 15
    characters, a block that was given back keeps its bytes until it is
    used again, and every stream opens. *)
Definition libstdcxx : Platform :=
  {| capacity s := Nat.max 15 (length s);
     freed _ _ b := b;
     opens _ := true |}.

(** The same library on a disk that takes no file. *)
Definition read_only : Platform :=
  {| capacity s := Nat.max 15 (length s);
     freed _ _ b := b;
     opens _ := false |}.

(** The tile list a run ends with, when it returns. *)
Definition tiles_of_run (r : res TileLoader * World) : option (list MapTile) :=
  match r.1 with
  | Ret l => Some (tiles_ l)
  | _ => None
  end.

(** A stand-in for libm and [std::to_string(double)] where a statement does
    not depend on them. *)
Definition no_libm (x : float) : float := x.
Definition no_format (x : float) : string := "?".
Definition hash7 (s : string) : Z := 7.

(** The loader of the examples: a 3 by 3 grid at zoom 2 around (1, 1). *)
Definition grid_loader : TileLoader :=
  loader "http://x/{z}/{x}/{y}.png" 2 1 1 1.

(** A loader at zoom 1 around (1, 1) with the largest block radius that
    passes the assertion of the constructor. *)
Definition wide_loader : TileLoader :=
  loader "http://x/{z}/{x}/{y}.png" 1 1 1 2147483647.

(** The loader and the world a call ends with, when it returns. *)
Definition result_of (r : res TileLoader * World) : TileLoader * World :=
  match r.1 with
  | Ret l => (l, r.2)
  | _ => (grid_loader, r.2)
  end.

(** A loader built at latitude 0, longitude 0, zoom 2 with one block around
    the centre, in an empty file system, and the world it is built in. *)
Definition built : TileLoader * World :=
  result_of (TileLoader_new no_libm no_libm no_libm no_format hash7
               "http://x/{z}/{x}/{y}.png" 0 0 2 1 empty_world).

(** A cosine that is right at 0, where a statement needs no more of it. *)
Definition flat_cos (x : float) : float := 1.

(* ===================================================================== *)
(** ** Integer facts *)
(* ===================================================================== *)

Lemma to_int_small z : is_int z -> to_int z = z.
Proof.
  unfold is_int, INT_MIN, INT_MAX, to_int. intros H.
  rewrite Z.mod_small by lia. lia.
Qed.

Lemma to_int_range z : is_int (to_int z).
Proof.
  unfold is_int, INT_MIN, INT_MAX, to_int.
  pose proof (Z.mod_pos_bound (z + 2 ^ 31) (2 ^ 32)). lia.
Qed.

Lemma pow2_bounds zoom : 0 <= zoom <= 30 -> 0 < 2 ^ zoom <= 2 ^ 30.
Proof.
  intros H. split; [apply Z.pow_pos_nonneg; lia | apply Z.pow_le_mono_r; lia].
Qed.

Lemma int_shl_1 zoom : 0 <= zoom <= 30 -> int_shl 1 zoom = 2 ^ zoom.
Proof.
  intros H. unfold int_shl. rewrite Z.shiftl_1_l.
  apply to_int_small. unfold is_int, INT_MIN, INT_MAX.
  pose proof (pow2_bounds zoom H). lia.
Qed.

Lemma maxTiles_of_spec zoom : 0 <= zoom <= 31 -> maxTiles_of zoom = 2 ^ zoom - 1.
Proof.
  intros H. destruct (Z.eq_dec zoom 31) as [-> | Hne]; [reflexivity |].
  unfold maxTiles_of, int_sub. rewrite int_shl_1 by lia.
  apply to_int_small. unfold is_int, INT_MIN, INT_MAX.
  pose proof (pow2_bounds zoom). lia.
Qed.

Lemma grid_width_spec zoom : 0 <= zoom <= 31 -> grid_width zoom = 2 ^ zoom.
Proof.
  intros H. destruct (Z.eq_dec zoom 31) as [-> | Hne]; [reflexivity |].
  unfold grid_width, to_unsigned. rewrite int_shl_1 by lia.
  pose proof (pow2_bounds zoom). apply Z.mod_small. lia.
Qed.

(** C7. For every zoom from 0 to 31 the largest tile index used to clamp the
    grid, [(1 << zoom) - 1] in [int], is [2^zoom - 1], and the grid width
    [n = (1 << zoom)] of [latLonToTileCoords], an [unsigned int], is
    [2^zoom].  At zoom 31 the shift gives [INT_MIN]; taking one off wraps
    around to [INT_MAX = 2^31 - 1], and the conversion to unsigned gives
    [2^31]. *)
Theorem max_tile_index_and_grid_width (l : TileLoader) :
  0 <= zoom_ l <= 31 ->
  maxTiles l = 2 ^ zoom_ l - 1 /\ grid_width (zoom_ l) = 2 ^ zoom_ l.
Proof.
  intros H. split; [apply maxTiles_of_spec | apply grid_width_spec]; exact H.
Qed.

(* ===================================================================== *)
(** ** The coordinate mapper *)
(* ===================================================================== *)

Section MapperFacts.

Variables tan cos log : float -> float.
Variable to_string_double : float -> string.

Local Abbreviation latLon := (latLonToTileCoords tan cos log to_string_double).

Lemma latLon_cases lat lon zoom :
  (refused lat lon zoom /\ fails_invalid_argument (latLon lat lon zoom))
  \/ (~ refused lat lon zoom /\ returns (latLon lat lon zoom)).
Proof.
  unfold latLonToTileCoords, refused, beyond.
  change (Double.of_Z (-180)) with (-180)%float.
  change (Double.of_Z 180) with 180%float.
  change (- 85.0511)%float with (-85.0511)%float.
  destruct (Z.ltb_spec 31 zoom) as [Hz | Hz].
  { left. split; [by left | by eexists]. }
  destruct (lat <? -85.0511)%float eqn:Hlat1; simpl.
  { left. split; [right; left; by left | by eexists]. }
  destruct (85.0511 <? lat)%float eqn:Hlat2; simpl.
  { left. split; [right; left; by right | by eexists]. }
  destruct (lon <? -180)%float eqn:Hlon1; simpl.
  { left. split; [right; right; by left | by eexists]. }
  destruct (180 <? lon)%float eqn:Hlon2; simpl.
  { left. split; [right; right; by right | by eexists]. }
  right. split; [| by eexists].
  intros [? | [[? | ?] | [? | ?]]]; (lia || congruence).
Qed.

Lemma fails_not_returns {A : Type} (r : res A) :
  fails_invalid_argument r -> returns r -> False.
Proof. intros [what ->] [a Ha]. discriminate. Qed.

(** Comparisons of doubles: [x <= y] fails exactly when [y < x] or one of
    the two is a NaN. *)
Lemma SFcompare_antisym x y : SFcompare y x = CompOpp <$> SFcompare x y.
Proof.
  destruct x as [sx | sx | | sx mx ex], y as [sy | sy | | sy my ey];
    try done; try (by destruct sx); try (by destruct sy);
    try (by destruct sx, sy).
  simpl. f_equal.
  rewrite (Z.compare_antisym ex ey).
  assert (Hm : Pos.compare_cont Eq my mx = CompOpp (Pos.compare_cont Eq mx my))
    by (symmetry; apply (Pos.compare_cont_antisym mx my Eq)).
  rewrite Hm.
  destruct sx, sy; try done; destruct (ex ?= ey); simpl; try done.
  all: by rewrite CompOpp_involutive.
Qed.

Lemma SFcompare_None x y :
  SFcompare x y = None <-> x = S754_nan \/ y = S754_nan.
Proof.
  destruct x as [sx | sx | | sx mx ex], y as [sy | sy | | sy my ey]; simpl;
    split; try discriminate; try tauto; intros [? | ?]; discriminate.
Qed.

Lemma SFcompare_refl x : x <> S754_nan -> SFcompare x x = Some Eq.
Proof.
  destruct x as [sx | sx | | sx mx ex]; try done; simpl.
  - by destruct sx.
  - intros _. rewrite Z.compare_refl.
    fold (Pos.compare mx mx). rewrite Pos.compare_refl. by destruct sx.
Qed.

Lemma is_nan_spec x : is_nan x = true <-> Prim2SF x = S754_nan.
Proof.
  unfold is_nan. rewrite FloatAxioms.eqb_spec. unfold SFeqb. split.
  - intros H. destruct (Prim2SF x) as [sx | sx | | sx mx ex] eqn:E; [| | done |];
      rewrite SFcompare_refl in H; done.
  - by intros ->.
Qed.

Lemma leb_false x y :
  (x <=? y)%float = false
  <-> (y <? x)%float = true \/ is_nan x = true \/ is_nan y = true.
Proof.
  rewrite FloatAxioms.leb_spec, FloatAxioms.ltb_spec, !is_nan_spec.
  unfold SFleb, SFltb. rewrite (SFcompare_antisym (Prim2SF x) (Prim2SF y)).
  pose proof (SFcompare_None (Prim2SF x) (Prim2SF y)) as Hnone.
  destruct (SFcompare (Prim2SF x) (Prim2SF y)) as [[| |] |]; simpl; split;
    try done; try tauto.
  all: try (intros [? | H]; [done |]; apply Hnone in H; done).
Qed.

(** Outside an interval with proper ends is beyond it, or a NaN. *)
Lemma outside_cases lo hi v :
  is_nan lo = false -> is_nan hi = false ->
  outside lo hi v <-> beyond lo hi v \/ is_nan v = true.
Proof.
  intros Hlo Hhi. unfold outside, within, beyond.
  pose proof (leb_false lo v) as [H1 H1'].
  pose proof (leb_false v hi) as [H2 H2'].
  rewrite Hlo in H1, H1'. rewrite Hhi in H2, H2'.
  destruct (lo <=? v)%float, (v <=? hi)%float; intuition discriminate.
Qed.

Lemma invalid_input_cases lat lon zoom :
  invalid_input lat lon zoom
  <-> refused lat lon zoom \/ is_nan lat = true \/ is_nan lon = true.
Proof.
  unfold invalid_input, refused.
  rewrite !outside_cases by reflexivity. tauto.
Qed.

Lemma nan_outside lo hi : outside lo hi nan.
Proof.
  intros [H _]. rewrite FloatAxioms.leb_spec in H.
  change (Prim2SF nan) with S754_nan in H. unfold SFleb in H.
  by destruct (Prim2SF lo).
Qed.

(** C4, on the code. [latLonToTileCoords] throws [std::invalid_argument]
    exactly when [zoom > 31], or the latitude is below -85.0511 or above
    85.0511, or the longitude is below -180 or above 180, and returns
    otherwise.  It throws only on inputs that the specification rejects, and
    zoom 32, latitude 90 and longitude 200 each fail.  But the checks are
    comparisons, and a NaN is neither below nor above a bound: a NaN
    latitude or longitude, which lies in no interval, is let through with
    any accepted other coordinate, and the call returns.  These are the
    only inputs that the specification rejects and the code accepts. *)
Theorem latLonToTileCoords_accepts_nan (lat lon : float) (zoom : Z) :
  (fails_invalid_argument (latLon lat lon zoom) <-> refused lat lon zoom)
  /\ (returns (latLon lat lon zoom) <-> ~ refused lat lon zoom)
  /\ (refused lat lon zoom -> invalid_input lat lon zoom)
  /\ (invalid_input lat lon zoom ->
      refused lat lon zoom \/ is_nan lat = true \/ is_nan lon = true)
  /\ (zoom <= 31 -> within (-180)%float 180%float lon ->
      invalid_input nan lon zoom /\ returns (latLon nan lon zoom))
  /\ (zoom <= 31 -> within (-85.0511)%float 85.0511%float lat ->
      invalid_input lat nan zoom /\ returns (latLon lat nan zoom))
  /\ fails_invalid_argument (latLon lat lon 32)
  /\ fails_invalid_argument (latLon 90 lon zoom)
  /\ fails_invalid_argument (latLon lat 200 zoom).
Proof.
  assert (Hiff : forall la lo z,
    (fails_invalid_argument (latLon la lo z) <-> refused la lo z)
    /\ (returns (latLon la lo z) <-> ~ refused la lo z)).
  { intros la lo z.
    destruct (latLon_cases la lo z) as [[Hin Hf] | [Hin Hr]].
    - repeat split; try done.
      + intros Hr. destruct (fails_not_returns _ Hf Hr).
    - repeat split; try done.
      + intros Hf. destruct (fails_not_returns _ Hf Hr). }
  assert (Hin : forall lo hi v, within lo hi v -> ~ beyond lo hi v).
  { intros lo hi v [H1 H2] [H | H].
    - assert (Hf : (lo <=? v)%float = false) by (apply leb_false; by left).
      congruence.
    - assert (Hf : (v <=? hi)%float = false) by (apply leb_false; by left).
      congruence. }
  assert (Hnan : forall lo hi, ~ beyond lo hi nan).
  { intros lo hi [H | H]; rewrite FloatAxioms.ltb_spec in H;
      change (Prim2SF nan) with S754_nan in H; unfold SFltb in H;
      [by destruct (Prim2SF lo) | by destruct (Prim2SF hi)]. }
  split; [apply Hiff |]. split; [apply Hiff |].
  split; [intros H; apply invalid_input_cases; by left |].
  split; [apply invalid_input_cases |].
  split; [| split].
  - intros Hz Hlon. split; [right; left; apply nan_outside |].
    apply Hiff. intros [? | [? | ?]]; [lia | by apply (Hnan _ _ H) |].
    by apply (Hin _ _ _ Hlon).
  - intros Hz Hlat. split; [right; right; apply nan_outside |].
    apply Hiff. intros [? | [? | ?]]; [lia | | by apply (Hnan _ _ H)].
    by apply (Hin _ _ _ Hlat).
  - repeat split; apply Hiff; unfold refused, beyond.
    + left. lia.
    + right. left. right. reflexivity.
    + right. right. right. reflexivity.
Qed.

Lemma zoom_cases zoom : 0 <= zoom <= 31 -> zoom ∈ seqZ 0 32.
Proof. intros H. apply elem_of_seqZ. lia. Qed.

(** A NaN equals no double. *)
Lemma nan_eqb (f : float) : (nan =? f)%float = false.
Proof. rewrite FloatAxioms.eqb_spec. reflexivity. Qed.

(** With a NaN longitude [x] is a NaN, and its floor equals no centre
    tile. *)
Lemma insideCentreTile_nan_false (l : TileLoader) (lat : float) :
  0 <= zoom_ l <= 31 ->
  ~ beyond (-85.0511)%float 85.0511%float lat ->
  insideCentreTile tan cos log to_string_double l lat nan = Ret false.
Proof.
  intros Hz Hlat. unfold beyond in Hlat.
  assert (H1 : (lat <? -85.0511)%float = false)
    by (destruct (lat <? -85.0511)%float; [destruct Hlat; by left | done]).
  assert (H2 : (85.0511 <? lat)%float = false)
    by (destruct (85.0511 <? lat)%float; [destruct Hlat; by right | done]).
  unfold insideCentreTile, latLonToTileCoords.
  change (- 85.0511)%float with (-85.0511)%float.
  rewrite H1, H2. apply zoom_cases in Hz.
  set (cx := Double.of_Z (center_tile_x_ l)).
  set (z := zoom_ l) in *. clearbody z cx.
  assert (Hx : forall n, In n (seqZ 0 32) ->
             Double.floor (Double.of_Z (grid_width n) * nan)%float = nan).
  { intros n Hn. simpl in Hn.
    repeat (destruct Hn as [<- | Hn]; [vm_compute; reflexivity |]). done. }
  apply list_elem_of_In in Hz.
  destruct (Z.ltb_spec 31 z) as [Hgt | _].
  { apply list_elem_of_In, elem_of_seqZ in Hz. lia. }
  change ((nan <? Double.of_Z (-180))%float || (Double.of_Z 180 <? nan)%float)
    with false.
  cbv iota. simpl.
  match goal with
  | |- mret ((Double.floor ?f =? _)%float && _) = _ =>
      change f with (Double.of_Z (grid_width z) * nan)%float
  end.
  by rewrite (Hx z Hz), nan_eqb.
Qed.

(** C10, on the code. When the checks of [latLonToTileCoords] refuse the
    latitude, the longitude or the configured zoom, [insideCentreTile]
    returns no boolean: the [std::invalid_argument] leaves it.  A NaN
    longitude, which lies outside [[-180, 180]], is not refused: with it
    [insideCentreTile] returns [false]. *)
Theorem insideCentreTile_propagates (l : TileLoader) (lat lon : float) :
  (refused lat lon (zoom_ l) ->
   fails_invalid_argument
     (insideCentreTile tan cos log to_string_double l lat lon))
  /\ (0 <= zoom_ l <= 31 ->
      within (-85.0511)%float 85.0511%float lat ->
      outside (-180)%float 180%float nan
      /\ insideCentreTile tan cos log to_string_double l lat nan = Ret false).
Proof.
  split.
  - intros H. unfold insideCentreTile.
    destruct (latLon_cases lat lon (zoom_ l)) as [[_ [what Hf]] | [Hn _]].
    + rewrite Hf. by exists what.
    + destruct (Hn H).
  - intros Hz [H1 H2]. split; [apply nan_outside |].
    apply insideCentreTile_nan_false; [done |].
    intros [H | H].
    + assert (Hf : (-85.0511 <=? lat)%float = false)
        by (apply leb_false; by left). congruence.
    + assert (Hf : (lat <=? 85.0511)%float = false)
        by (apply leb_false; by left). congruence.
Qed.

(** C6, at the failing inputs. On the meridian of 180 degrees the
    [x] coordinate is the grid width itself, at every zoom from 0 to 31: its
    floor is [2^zoom], one past the last tile index [2^zoom - 1].  The same
    holds for the largest double below 180, because the sum [lon + 180] is
    rounded to 360. *)
Theorem east_edge_is_off_grid (zoom : Z) :
  0 <= zoom <= 31 ->
  (exists x y, latLon 0 180 zoom = Ret (x, y)
               /\ Double.floorZ x = Some (2 ^ zoom))
  /\ (exists x y, latLon 0 0x1.67fffffffffffp+7 zoom = Ret (x, y)
                  /\ Double.floorZ x = Some (2 ^ zoom))
  /\ ~ 2 ^ zoom <= 2 ^ zoom - 1.
Proof.
  intros H. apply zoom_cases in H.
  split; [| split; [| lia]].
  all: repeat (apply elem_of_cons in H as [-> | H]);
    try (by apply elem_of_nil in H);
    eexists _, _; (split; [reflexivity | vm_compute; reflexivity]).
Qed.

End MapperFacts.

(* ===================================================================== *)
(** ** URL templates *)
(* ===================================================================== *)

Lemma matches_here_length ex pat range :
  matches_here ex pat range = true -> (length pat <= length range)%nat.
Proof.
  revert range. induction pat as [| p pat IH]; intros [| c range]; simpl;
    try lia; try discriminate.
  intros H. apply andb_prop in H as [_ H]. apply IH in H. lia.
Qed.

Lemma regex_search_bound ex range position :
  regex_search ex range = Some position ->
  (position + length (literal ex) <= length range)%nat.
Proof.
  revert position. induction range as [| c range IH]; intros position; simpl.
  - discriminate.
  - destruct (matches_here ex (literal ex) (c :: range)) eqn:Hm.
    + intros [= <-]. apply matches_here_length in Hm. simpl in *. lia.
    + destruct (regex_search ex range) as [k |] eqn:Hs; simpl; [| discriminate].
      intros [= <-]. specialize (IH k eq_refl). lia.
Qed.

Lemma length_string_replace str pos len replace :
  (pos + len <= length str)%nat ->
  length (string_replace str pos len replace)
  = (length str - len + length replace)%nat.
Proof.
  intros H. unfold string_replace.
  rewrite !length_app, length_take, length_drop. lia.
Qed.

Section Templates.

Context {P : Platform}.

(** The scan of [replaceRegex] ends and throws nothing.  With a non-empty
    expression every round moves [start] forward, and it never passes the
    end of the range.  As long as the string lives in the block it was in at
    entry, the part of the block behind [start] is no longer than the
    string, so that a position found there is inside the string; once the
    string has moved it is longer than the block, and every later [replace]
    makes it longer still. *)
Lemma replaceRegex_loop_returns fuel ex replace str buf cap start
    (live : bool) count :
  literal ex <> [] ->
  (length buf - start < fuel)%nat ->
  (if live
   then (length buf <= length str + start)%nat
        /\ (length str <= Nat.max (length buf) cap)%nat
   else (length buf <= length str)%nat
        /\ (length (literal ex) <= length replace)%nat) ->
  returns (replaceRegex_loop fuel ex replace str buf cap start live count).
Proof.
  intros Hlit. revert str buf start live count.
  induction fuel as [| fuel IH]; intros str buf start live count Hfuel Hinv;
    [lia |].
  cbn [replaceRegex_loop].
  set (range := if live then buf else imap (freed str) buf).
  assert (Hrange : length range = length buf).
  { unfold range. destruct live; [done | apply length_imap]. }
  destruct (regex_search ex (drop start range)) as [position |] eqn:Hs;
    [| by eexists].
  apply regex_search_bound in Hs. rewrite length_drop, Hrange in Hs.
  assert (0 < length (literal ex))%nat
    by (destruct (literal ex); simpl; [done | lia]).
  assert (Hpos : (position + length (literal ex) <= length str)%nat)
    by (destruct live; lia).
  rewrite bool_decide_eq_false_2 by lia. cbv zeta.
  pose proof (length_string_replace str position _ replace Hpos) as Hlen.
  set (str' := string_replace str position (length (literal ex)) replace) in *.
  destruct live; cbn [andb].
  - destruct ((length str' <=? length buf)%nat || (length str' <=? cap)%nat)
      eqn:Hfits.
    + assert (Hbuf : length (take (length buf)
                               (str' ++ NUL :: drop (S (length str')) buf))
                     = length buf).
      { rewrite length_take, length_app. simpl. rewrite length_drop. lia. }
      apply IH; rewrite Hbuf; [lia |].
      apply orb_true_iff in Hfits as [Hf | Hf]; apply Nat.leb_le in Hf; lia.
    + apply orb_false_iff in Hfits as [Hf1 Hf2].
      apply Nat.leb_gt in Hf1, Hf2. apply IH; lia.
  - apply IH; lia.
Qed.

Lemma replaceRegex_returns_always c str replace :
  returns (replaceRegex (placeholder c) str replace).
Proof.
  unfold replaceRegex.
  destruct (replaceRegex_loop_returns
              (S (length (list_ascii_of_string str))) (placeholder c)
              (list_ascii_of_string replace)
              (list_ascii_of_string str) (list_ascii_of_string str)
              (capacity (list_ascii_of_string str)) 0%nat true 0)
    as [[s' n] ->]; try done; try lia.
  by eexists.
Qed.

(** Every template has a URL, at every index. *)
Lemma uriForTile_total l x y : returns (uriForTile l x y).
Proof.
  unfold uriForTile.
  destruct (replaceRegex_returns_always "x" (object_uri_ l) (to_string x))
    as [[o1 n1] ->]. simpl.
  destruct (replaceRegex_returns_always "y" o1 (to_string y))
    as [[o2 n2] ->]. simpl.
  destruct (replaceRegex_returns_always "z" o2 (to_string (zoom_ l)))
    as [[o3 n3] ->]. simpl.
  by eexists.
Qed.

Lemma to_string_short x : 0 <= x <= 999 -> (String.length (to_string x) <= 3)%nat.
Proof.
  intros H.
  assert (Hall : forallb (fun x => (String.length (to_string x) <=? 3)%nat)
                         (seqZ 0 1000) = true) by (vm_compute; reflexivity).
  rewrite forallb_forall in Hall.
  apply Nat.leb_le, Hall, list_elem_of_In, elem_of_seqZ. lia.
Qed.

(** C5, on the code. A template in which every placeholder occurs once is
    resolved as specified, whatever the case of the placeholder's letter.
    A placeholder that occurs twice is not: the position of the second match
    is counted from the end of the first but used from the start of the
    string, so ["{x}/{x}"] with [x = 100] becomes ["1100{x}"], not
    ["100/100"], and after a shorter replacement the scan reads the stale end
    of the buffer, so ["{x}{x}"] with [x = 3] becomes ["3{x}"]. *)
Theorem uriForTile_examples :
  uriForTile (loader "http://x/{z}/{x}/{y}.png" 2 0 0 0) 3 5
    = Ret "http://x/2/3/5.png"%string
  /\ uriForTile (loader "http://x/{Z}/{X}/{Y}.png" 2 0 0 0) 3 5
    = Ret "http://x/2/3/5.png"%string
  /\ uriForTile (loader "{x}/{x}" 7 0 0 0) 100 5 = Ret "1100{x}"%string
  /\ uriForTile (loader "{x}{x}" 7 0 0 0) 3 5 = Ret "3{x}"%string.
Proof. repeat split; vm_compute; reflexivity. Qed.

End Templates.

(* ===================================================================== *)
(** ** Construction *)
(* ===================================================================== *)

Lemma ancestors_whole rest seen :
  seen ++ rest <> [] ->
  string_of_list_ascii (seen ++ rest) ∈ ancestors seen rest.
Proof.
  revert seen. induction rest as [| c rest IH]; intros seen H; simpl.
  - rewrite app_nil_r in *. destruct seen; [done |]. apply list_elem_of_here.
  - apply elem_of_app. right.
    replace (seen ++ c :: rest) with ((seen ++ [c]) ++ rest)
      by (by rewrite <- app_assoc).
    apply IH. by destruct seen.
Qed.

Lemma foldl_make_dir_stuck (r : res (gmap string node)) ds :
  (forall m, r <> Ret m) -> foldl make_dir r ds = r.
Proof.
  revert r. induction ds as [| d ds IH]; intros r Hr; simpl; [done |].
  assert (Hd : make_dir r d = r) by (destruct r; try done; by destruct (Hr a)).
  rewrite Hd. by apply IH.
Qed.

(** When every directory could be made, each is a directory afterwards and
    whatever was there before still is. *)
Lemma foldl_make_dir_ok ds (m0 m : gmap string node) :
  foldl make_dir (Ret m0) ds = Ret m ->
  (forall d, d ∈ ds -> m !! d = Some Dir)
  /\ (forall q n, m0 !! q = Some n -> m !! q = Some n)
  /\ (forall q data, m !! q = Some (File data) -> m0 !! q = Some (File data)).
Proof.
  revert m0. induction ds as [| d ds IH]; intros m0; simpl.
  - intros [= ->]. split; [| done]. intros d Hd. by apply elem_of_nil in Hd.
  - destruct (m0 !! d) as [[| data] |] eqn:Hd; unfold mret, res_ret.
    + intros H. destruct (IH _ H) as (Hdirs & Hkeep & Hfiles).
      split; [| done]. intros d' [-> | Hd']%elem_of_cons; [| by apply Hdirs].
      by apply Hkeep.
    + rewrite foldl_make_dir_stuck by done. discriminate.
    + intros H. destruct (IH _ H) as (Hdirs & Hkeep & Hfiles).
      split; [| split].
      * intros d' [-> | Hd']%elem_of_cons; [| by apply Hdirs].
        apply Hkeep. apply lookup_insert_eq.
      * intros q n Hq. apply Hkeep.
        rewrite lookup_insert_ne; [done |]. intros ->. congruence.
      * intros q data Hq. apply Hfiles in Hq.
        destruct (decide (d = q)) as [-> | Hne].
        -- rewrite lookup_insert_eq in Hq. discriminate.
        -- by rewrite lookup_insert_ne in Hq.
Qed.

Lemma create_directories_ok p w w1 :
  p <> ""%string ->
  create_directories p w = (Ret tt, w1) ->
  fs w1 !! p = Some Dir
  /\ trace w1 = trace w ++ [ev_create_directories p]
  /\ (forall q n, fs w !! q = Some n -> fs w1 !! q = Some n)
  /\ (forall q data, fs w1 !! q = Some (File data) -> fs w !! q = Some (File data)).
Proof.
  intros Hp. unfold create_directories.
  destruct (foldl make_dir _ _) as [m | | | |] eqn:Hfold; try discriminate.
  intros [= <-]. simpl.
  destruct (foldl_make_dir_ok _ _ _ Hfold) as (Hdirs & Hkeep & Hfiles).
  split; [| done].
  apply Hdirs.
  rewrite <- (string_of_list_ascii_of_string p) at 1.
  apply (ancestors_whole _ []). simpl.
  destruct p; [done | discriminate].
Qed.

Section Construction.

Variables tan cos log : float -> float.
Variable to_string_double : float -> string.
Variable hash_fn : string -> Z.

Local Abbreviation latLon := (latLonToTileCoords tan cos log to_string_double).
Local Abbreviation new := (TileLoader_new tan cos log to_string_double hash_fn).

(** C8, as the code has it. When the zoom, the latitude or the longitude
    is invalid and the cache directory could be made, the constructor
    throws [std::invalid_argument] and no loader object results; but
    [create_directories] has run before the check: the cache directory of
    the source exists afterwards and the call is in the trace.  Nothing
    else changes on disk: what was there is kept and no file is new. *)
Theorem constructor_failure_keeps_directory
    (service : string) (lat lon : float) (zoom blocks : Z) (w w1 : World) :
  0 <= to_int blocks ->
  refused lat lon zoom ->
  let cache := ("./gzsatellite/mapscache/" ++ to_string (hash_fn service))%string in
  create_directories cache w = (Ret tt, w1) ->
  (exists what, new service lat lon zoom blocks w
                = (Throw (invalid_argument what), w1))
  /\ fs w1 !! cache = Some Dir
  /\ trace w1 = trace w ++ [ev_create_directories cache]
  /\ (forall q n, fs w !! q = Some n -> fs w1 !! q = Some n)
  /\ (forall q data, fs w1 !! q = Some (File data) ->
                     fs w !! q = Some (File data)).
Proof.
  intros Hblocks Hinv cache Hmk.
  split; [| by apply create_directories_ok].
  unfold TileLoader_new.
  destruct (Z.ltb_spec (to_int blocks) 0) as [? | _]; [lia |].
  change ("." ++ "/gzsatellite/mapscache/" ++ to_string (hash_fn service))%string
    with cache.
  rewrite Hmk.
  destruct (latLon_cases tan cos log to_string_double lat lon zoom)
    as [[_ [what Hf]] | [Hn _]]; [| destruct (Hn Hinv)].
  rewrite Hf. by exists what.
Qed.

End Construction.

(* ===================================================================== *)
(** ** What [start] and [abort] leave alone *)
(* ===================================================================== *)

Section Frame.

Context {P : Platform}.
Variables tan cos log : float -> float.
Variable to_string_double : float -> string.
Variable hash_fn : string -> Z.
Variable cpr_Get : string -> Response.

Local Abbreviation latLon := (latLonToTileCoords tan cos log to_string_double).
Local Abbreviation new := (TileLoader_new tan cos log to_string_double hash_fn).

(** What the constructor puts into the object it returns. *)
Lemma TileLoader_new_fields service lat lon zoom blocks w0 l0 w1 :
  new service lat lon zoom blocks w0 = (Ret l0, w1) ->
  exists x y,
    latLon lat lon zoom = Ret (x, y)
    /\ center_tile_x_ l0 = Double.to_int (Double.floor x)
    /\ center_tile_y_ l0 = Double.to_int (Double.floor y)
    /\ origin_offset_x_ l0 = (x - Double.of_Z (center_tile_x_ l0))%float
    /\ origin_offset_y_ l0 = (y - Double.of_Z (center_tile_y_ l0))%float
    /\ (object_uri_ l0, latitude_ l0, longitude_ l0, zoom_ l0, blocks_ l0)
       = (service, lat, lon, zoom, to_int blocks)
    /\ tiles_ l0 = [].
Proof.
  unfold TileLoader_new.
  destruct (to_int blocks <? 0); [discriminate |].
  destruct (create_directories _ w0) as [[[] | | | |] w2]; try discriminate.
  destruct (latLon lat lon zoom) as [[x y] | | | |]; try discriminate.
  intros [= <- _]. by exists x, y.
Qed.

Lemma load_tile_config l x y w l' w' :
  load_tile cpr_Get l x y w = (Ret l', w') -> config l' = config l.
Proof.
  unfold load_tile.
  destruct (fs_exists w _); [by intros [= <- _] |].
  destruct (uriForTile l x y) as [u | | | |]; try discriminate.
  destruct (status_code (cpr_Get u) =? 200); by intros [= <- _].
Qed.

Lemma loop_x_config fuel l y x mx w l' w' :
  loop_x cpr_Get fuel l y x mx w = (Ret l', w') -> config l' = config l.
Proof.
  revert l x w. induction fuel as [| fuel IH]; intros l x w; simpl;
    [discriminate |].
  destruct (x <=? mx); [| by intros [= <- _]].
  destruct (load_tile cpr_Get l x y w) as [[l1 | | | |] w1] eqn:Hstep;
    try discriminate.
  intros H. apply IH in H. rewrite H. by eapply load_tile_config.
Qed.

Lemma loop_y_config fuel inner l y my mnx mx w l' w' :
  loop_y cpr_Get fuel inner l y my mnx mx w = (Ret l', w') ->
  config l' = config l.
Proof.
  revert l y w. induction fuel as [| fuel IH]; intros l y w; simpl;
    [discriminate |].
  destruct (y <=? my); [| by intros [= <- _]].
  destruct (loop_x cpr_Get inner l y mnx mx w) as [[l1 | | | |] w1] eqn:Hrow;
    try discriminate.
  intros H. apply IH in H. rewrite H. by eapply loop_x_config.
Qed.

(** C9. The constructor derives the centre tile and the origin offset from
    the configured latitude, longitude and zoom.  [abort] changes nothing
    but the tile list, which it empties, and a second [abort] changes
    nothing at all.  A [start] that returns leaves the source, latitude,
    longitude, zoom, block radius, centre tile, origin offset and cache path
    as they were.  [start] gives the same result whatever the tile list was
    before. *)
Theorem start_abort_frame (fuel : nat) (l : TileLoader) (w : World)
    (ts : list MapTile) :
  config (abort l) = config l
  /\ tiles_ (abort l) = []
  /\ abort (abort l) = abort l
  /\ (forall l' w', start cpr_Get fuel l w = (Ret l', w') ->
                    config l' = config l)
  /\ start cpr_Get fuel (set_tiles l ts) w = start cpr_Get fuel l w
  /\ (forall service lat lon zoom blocks w0 l0 w1,
        new service lat lon zoom blocks w0 = (Ret l0, w1) ->
        exists x y,
          latLon lat lon zoom = Ret (x, y)
          /\ center_tile_x_ l0 = Double.to_int (Double.floor x)
          /\ center_tile_y_ l0 = Double.to_int (Double.floor y)
          /\ origin_offset_x_ l0 = (x - Double.of_Z (center_tile_x_ l0))%float
          /\ origin_offset_y_ l0 = (y - Double.of_Z (center_tile_y_ l0))%float).
Proof.
  split; [done |]. split; [done |]. split; [done |].
  split; [| split; [done |]].
  - intros l' w' H. unfold start in H. by apply loop_y_config in H.
  - intros service lat lon zoom blocks w0 l0 w1 H.
    destruct (TileLoader_new_fields _ _ _ _ _ _ _ _ H)
      as (x & y & Hxy & Hcx & Hcy & Hox & Hoy & _).
    by exists x, y.
Qed.

End Frame.

(* ===================================================================== *)
(** ** Cache paths name their index *)
(* ===================================================================== *)

Lemma plain_uint u : plain (NilEmpty.string_of_uint u).
Proof. induction u; simpl; (done || (split; [discriminate | done])). Qed.

Lemma plain_to_string z : plain (to_string z).
Proof.
  unfold to_string. destruct (Z.to_int z) as [u | u]; simpl.
  - destruct u; try apply plain_uint. simpl. split; [discriminate | done].
  - split; [discriminate |].
    destruct u; try apply plain_uint. simpl. split; [discriminate | done].
Qed.

Lemma to_string_inj a b : to_string a = to_string b -> a = b.
Proof.
  unfold to_string. intros H.
  apply DecimalZ.to_int_inj.
  assert (Hok : forall z, Z.to_int z <> Pos Nil /\ Z.to_int z <> Neg Nil).
  { intros [| q | q]; simpl; split; try discriminate;
      intros [= Hq]; by apply DecimalPos.Unsigned.to_uint_nonnil in Hq. }
  apply (f_equal NilZero.int_of_string) in H.
  rewrite !NilZero.isi in H by apply Hok.
  congruence.
Qed.

(** Two plain texts followed by an underscore and more: equal wholes have
    equal parts. *)
Lemma plain_split a a' r r' :
  plain a -> plain a' ->
  (a ++ String "_" r = a' ++ String "_" r')%string -> a = a' /\ r = r'.
Proof.
  revert a'. induction a as [| c a IH]; intros [| c' a']; simpl.
  - intros _ _ [= ->]. done.
  - intros _ [Hc _] [= <- _]. done.
  - intros [Hc _] _ [= -> _]. done.
  - intros [_ Ha] [_ Ha'] [= -> H]. destruct (IH _ Ha Ha' H) as [-> ->]. done.
Qed.

Lemma append_inj_r (p a b : string) : (p ++ a = p ++ b)%string -> a = b.
Proof. induction p as [| c p IH]; simpl; [done |]. intros [= H]. by apply IH. Qed.

Lemma cachedNameForTile_inj x y z x' y' z' :
  cachedNameForTile x y z = cachedNameForTile x' y' z' -> x = x' /\ y = y'.
Proof.
  unfold cachedNameForTile. simpl. intros [= H].
  apply plain_split in H as [Hx H]; [| apply plain_to_string ..].
  simpl in H. injection H as H.
  apply plain_split in H as [Hy _]; [| apply plain_to_string ..].
  split; by apply to_string_inj.
Qed.

Lemma string_app_assoc (a b c : string) :
  (a ++ b ++ c = (a ++ b) ++ c)%string.
Proof.
  induction a as [| x a IH]; [done |].
  change (String x (a ++ b ++ c) = String x ((a ++ b) ++ c))%string.
  by rewrite IH.
Qed.

Lemma path_append_prefix p : exists pre, forall q, path_append p q = (pre ++ q)%string.
Proof.
  unfold path_append. destruct (rev (list_ascii_of_string p)) as [| c t].
  - by exists ""%string.
  - case_bool_decide.
    + by exists p.
    + exists (p ++ "/")%string. intros q. apply string_app_assoc.
Qed.

Lemma cachedPathForTile_inj l x y z x' y' z' :
  cachedPathForTile l x y z = cachedPathForTile l x' y' z' -> x = x' /\ y = y'.
Proof.
  unfold cachedPathForTile.
  destruct (path_append_prefix (cache_path_ l)) as [pre Hpre].
  rewrite !Hpre. intros H%append_inj_r. by eapply cachedNameForTile_inj.
Qed.

Lemma path_of_inj l i j : path_of l i = path_of l j -> i = j.
Proof.
  destruct i as [x y], j as [x' y']. unfold path_of. simpl.
  intros [-> ->]%cachedPathForTile_inj. done.
Qed.

(* ===================================================================== *)
(** ** The loops of [start] *)
(* ===================================================================== *)

Lemma range_nil lo hi : hi < lo -> range lo hi = [].
Proof. intros H. unfold range. apply seqZ_nil. lia. Qed.

Lemma range_cons lo hi : lo <= hi -> range lo hi = lo :: range (lo + 1) hi.
Proof.
  intros H. unfold range. rewrite seqZ_cons by lia. f_equal. f_equal; lia.
Qed.

Lemma elem_of_range lo hi k : k ∈ range lo hi <-> lo <= k <= hi.
Proof. unfold range. rewrite elem_of_seqZ. lia. Qed.

Lemma row_major_cons xs y ys :
  row_major xs (y :: ys) = ((fun x => (x, y)) <$> xs) ++ row_major xs ys.
Proof. reflexivity. Qed.

Lemma elem_of_row_major xs ys x y :
  (x, y) ∈ row_major xs ys <-> x ∈ xs /\ y ∈ ys.
Proof.
  unfold row_major. rewrite list_elem_of_bind. split.
  - intros (y' & Hx & Hy). apply list_elem_of_fmap in Hx as (x' & [= -> ->] & Hx).
    done.
  - intros [Hx Hy]. exists y. split; [| done].
    apply list_elem_of_fmap. by exists x.
Qed.

Lemma NoDup_row_major xs ys : NoDup xs -> NoDup ys -> NoDup (row_major xs ys).
Proof.
  intros Hxs Hys. unfold row_major. apply NoDup_bind; [| | done].
  - intros y1 y2 [x y] _ _ H1 H2.
    apply list_elem_of_fmap in H1 as (? & [= _ ->] & _).
    apply list_elem_of_fmap in H2 as (? & [= _ ->] & _). done.
  - intros y _. apply NoDup_fmap_2_strong; [| done].
    intros x1 x2 _ _ [= ->]. done.
Qed.

Section Loops.

Context {P : Platform}.
Variable cpr_Get : string -> Response.

Local Abbreviation load_tile := (load_tile cpr_Get).
Local Abbreviation load_all := (load_all cpr_Get).
Local Abbreviation loop_x := (loop_x cpr_Get).
Local Abbreviation loop_y := (loop_y cpr_Get).
Local Abbreviation start := (start cpr_Get).

Lemma load_all_app l a b w :
  load_all l (a ++ b) w =
  match load_all l a w with
  | (Ret l', w') => load_all l' b w'
  | other => other
  end.
Proof.
  revert l w. induction a as [| [x y] a IH]; intros l w; simpl; [done |].
  destruct (load_tile l x y w) as [[l1 | | | |] w1]; done.
Qed.

(** The inner loop is [load_tile] along the row, when the upper bound is
    below [INT_MAX] and the fuel covers the row. *)
Lemma loop_x_load_all fuel l y x mx w :
  INT_MIN <= x -> mx < INT_MAX ->
  (Z.to_nat (mx - x + 1) < fuel)%nat ->
  loop_x fuel l y x mx w = load_all l ((fun x => (x, y)) <$> range x mx) w.
Proof.
  revert l x w. induction fuel as [| fuel IH]; intros l x w Hx Hmx Hfuel;
    [lia |]. simpl.
  destruct (Z.leb_spec x mx) as [Hle | Hgt].
  - rewrite range_cons by done. simpl.
    destruct (load_tile l x y w) as [[l1 | | | |] w1]; try done.
    assert (Hnext : int_add x 1 = x + 1).
    { apply to_int_small. unfold is_int. lia. }
    rewrite Hnext. apply IH; lia.
  - by rewrite range_nil.
Qed.

(** The outer loop is [load_tile] along the rows in turn. *)
Lemma loop_y_load_all fuel inner l y my mnx mx w :
  INT_MIN <= y -> my < INT_MAX -> INT_MIN <= mnx -> mx < INT_MAX ->
  (Z.to_nat (my - y + 1) < fuel)%nat ->
  (Z.to_nat (mx - mnx + 1) < inner)%nat ->
  loop_y fuel inner l y my mnx mx w
  = load_all l (row_major (range mnx mx) (range y my)) w.
Proof.
  intros Hy Hmy Hmnx Hmx Hfuel Hinner. revert l y w Hy Hfuel.
  induction fuel as [| fuel IH]; intros l y w Hy Hfuel; [lia |]. simpl.
  destruct (Z.leb_spec y my) as [Hle | Hgt].
  - rewrite (range_cons y my) by done. rewrite row_major_cons, load_all_app.
    rewrite loop_x_load_all by done.
    destruct (load_all l _ w) as [[l1 | | | |] w1]; try done.
    assert (Hnext : int_add y 1 = y + 1).
    { apply to_int_small. unfold is_int. lia. }
    rewrite Hnext. apply IH; lia.
  - by rewrite (range_nil y my).
Qed.

Lemma start_load_all fuel l w :
  loops_end l -> (fuel_for l <= fuel)%nat ->
  start fuel l w = load_all (abort l) (grid l) w.
Proof.
  intros [Hx Hy] Hfuel. unfold start, fuel_for in *.
  change (min_x (abort l)) with (min_x l).
  change (max_x (abort l)) with (max_x l).
  change (min_y (abort l)) with (min_y l).
  change (max_y (abort l)) with (max_y l).
  assert (0 <= min_x l /\ 0 <= min_y l) as [? ?]
    by (unfold min_x, min_y; lia).
  apply loop_y_load_all; try done; unfold INT_MIN; lia.
Qed.

End Loops.

(* ===================================================================== *)
(** ** One index, then the whole grid *)
(* ===================================================================== *)

Section Resolution.

Context {P : Platform}.
Variable cpr_Get : string -> Response.

Local Abbreviation step := (load_tile cpr_Get).
Local Abbreviation walk := (load_all cpr_Get).
Local Abbreviation ok := (resolved cpr_Get).
Local Abbreviation put := (written cpr_Get).
Local Abbreviation events := (tile_events cpr_Get).

Lemma load_all_cons l i idx w :
  walk l (i :: idx) w =
  match step l i.1 i.2 w with
  | (Ret l', w') => walk l' idx w'
  | other => other
  end.
Proof. by destruct i. Qed.

(** One round of the loop, in a world [w] that agrees with [w0] on whether
    the index is cached. *)
Lemma load_tile_spec l ts w0 w i :
  cached l w i = cached l w0 i ->
  (cached l w0 i = false -> returns (uriForTile l i.1 i.2)) ->
  step (set_tiles l ts) i.1 i.2 w
  = (Ret (set_tiles l (ts ++ if ok l w0 i then [tile_of l i] else [])),
     {| fs := put l w0 i (fs w); trace := trace w ++ events l w0 i |}).
Proof.
  intros Hsame Hurl.
  unfold load_tile, resolved, written, tile_events, fetched, response_of.
  change (fs_exists w (cachedPathForTile (set_tiles l ts) i.1 i.2
                         (to_int (zoom_ (set_tiles l ts)))))
    with (cached l w i).
  change (uriForTile (set_tiles l ts) i.1 i.2) with (uriForTile l i.1 i.2).
  change (cachedPathForTile (set_tiles l ts) i.1 i.2
            (to_int (zoom_ (set_tiles l ts)))) with (path_of l i).
  rewrite Hsame.
  destruct (cached l w0 i) eqn:Hc; simpl.
  - reflexivity.
  - destruct (Hurl eq_refl) as [u ->].
    destruct (status_code (cpr_Get u) =? 200); simpl.
    + unfold emit. simpl. rewrite <- !app_assoc. reflexivity.
    + unfold emit. simpl. rewrite <- !app_assoc, app_nil_r.
      by destruct w.
Qed.

(** Writing the file of one index leaves the others where they were. *)
Lemma cached_written l w0 i m t t' j :
  i <> j ->
  cached l {| fs := put l w0 i m; trace := t |} j
  = cached l {| fs := m; trace := t' |} j.
Proof.
  intros Hne. unfold cached, fs_exists, written. simpl.
  destruct (cached l w0 i); [done |].
  destruct (response_of cpr_Get l i) as [r |]; [| done].
  destruct (status_code r =? 200); [| done].
  unfold fstream_write. destruct (stream_opens m _ _); [| done].
  rewrite lookup_insert_ne; [done |].
  intros H. by apply path_of_inj in H.
Qed.

(** The whole list: the tiles pushed, the files written and the events,
    index by index, all told from the world [w0] the walk starts in. *)
Lemma load_all_spec l w0 idx ts w :
  NoDup idx ->
  (forall i, i ∈ idx -> cached l w i = cached l w0 i) ->
  resolvable l w0 idx ->
  walk (set_tiles l ts) idx w
  = (Ret (set_tiles l (ts ++ (tile_of l <$> filter (fun i => ok l w0 i) idx))),
     {| fs := foldl (fun m i => put l w0 i m) (fs w) idx;
        trace := trace w ++ (idx ≫= events l w0) |}).
Proof.
  revert ts w. induction idx as [| i idx IH]; intros ts w Hnd Hsame Hurl.
  - simpl. rewrite !app_nil_r. by destruct w.
  - apply NoDup_cons in Hnd as [Hi Hnd].
    rewrite load_all_cons, (load_tile_spec l ts w0 w i).
    + rewrite IH; [| done | |].
      * simpl fs. simpl trace. rewrite bind_cons, <- !app_assoc.
        destruct (ok l w0 i) eqn:Hok.
        -- rewrite filter_cons_True; [reflexivity | rewrite Hok; exact I].
        -- rewrite filter_cons_False; [| rewrite Hok; intros []].
           rewrite app_nil_l. reflexivity.
      * intros j Hj. rewrite <- (Hsame j) by (by apply list_elem_of_further).
        destruct w. apply cached_written. by intros ->.
      * intros j Hj. apply Hurl. by apply list_elem_of_further.
    + apply Hsame. apply list_elem_of_here.
    + apply Hurl. apply list_elem_of_here.
Qed.

Lemma NoDup_grid l : NoDup (grid l).
Proof. apply NoDup_row_major; apply NoDup_seqZ. Qed.

(** [start] told from the world it starts in. *)
Lemma start_spec fuel l w :
  loops_end l -> (fuel_for l <= fuel)%nat -> resolvable l w (grid l) ->
  start cpr_Get fuel l w
  = (Ret (set_tiles l (tile_of l <$> filter (fun i => ok l w i) (grid l))),
     {| fs := foldl (fun m i => put l w i m) (fs w) (grid l);
        trace := trace w ++ (grid l ≫= events l w) |}).
Proof.
  intros Hend Hfuel Hurl. rewrite start_load_all by done.
  unfold abort. by rewrite (load_all_spec l w); [| apply NoDup_grid | |].
Qed.

(** Every index is probed once, first thing. *)
Lemma probes_events l w (idx : list (Z * Z)) : probes (idx ≫= events l w) = path_of l <$> idx.
Proof.
  induction idx as [| i idx IH]; [done |].
  rewrite bind_cons. unfold probes in *. rewrite omap_app, IH.
  rewrite fmap_cons. unfold tile_events.
  destruct (cached l w i); [done |].
  destruct (uriForTile l i.1 i.2); try done.
  simpl. by destruct (status_code (cpr_Get a) =? 200).
Qed.

Lemma events_in_trace l w (idx : list (Z * Z)) i e :
  i ∈ idx -> e ∈ events l w i -> e ∈ idx ≫= events l w.
Proof. intros Hi He. apply list_elem_of_bind. by exists i. Qed.

(** Nothing is written at the path of an index that was cached or whose
    fetch did not succeed. *)
Lemma foldl_put_unresolved l w idx m i :
  cached l w i = true \/ fetched cpr_Get l i = false ->
  foldl (fun m j => put l w j m) m idx !! path_of l i = m !! path_of l i.
Proof.
  intros Hi. revert m. induction idx as [| j idx IH]; intros m; [done |].
  simpl. rewrite IH. unfold written.
  destruct (cached l w j) eqn:Hcj; [done |].
  destruct (response_of cpr_Get l j) as [r |] eqn:Hr; [| done].
  destruct (status_code r =? 200) eqn:Hs; [| done].
  unfold fstream_write. destruct (stream_opens m _ _); [| done].
  apply lookup_insert_ne. intros Hp. apply path_of_inj in Hp as ->.
  destruct Hi as [Hi | Hi]; [congruence |].
  unfold fetched in Hi. rewrite Hr in Hi. congruence.
Qed.

Lemma tile_of_inj l i j : tile_of l i = tile_of l j -> i = j.
Proof.
  destruct i as [x y], j as [x' y']. unfold tile_of, tile_at. simpl.
  by intros [= -> ->].
Qed.

Lemma elem_of_resolved_tiles l w (idx : list (Z * Z)) i :
  tile_of l i ∈ tile_of l <$> filter (fun j => ok l w j) idx
  <-> i ∈ idx /\ ok l w i = true.
Proof.
  rewrite list_elem_of_fmap. split.
  - intros (j & Hj%tile_of_inj & Hin). subst j.
    apply list_elem_of_filter in Hin as [Hok Hin].
    split; [done |]. by apply Is_true_true.
  - intros [Hin Hok]. exists i. split; [done |].
    apply list_elem_of_filter. split; [| done]. by apply Is_true_true.
Qed.

(** Under [no_wrap] the bounds of the code are those of the specification. *)
Lemma grid_spec_grid l :
  0 <= zoom_ l <= 31 -> no_wrap l -> grid l = spec_grid l.
Proof.
  intros Hz (Hx1 & Hx2 & Hy1 & Hy2).
  unfold grid, spec_grid, min_x, max_x, min_y, max_y, maxTiles,
    int_sub, int_add.
  by rewrite maxTiles_of_spec, !to_int_small.
Qed.

Lemma loops_end_spec l :
  0 <= zoom_ l <= 31 -> no_wrap l ->
  (zoom_ l = 31 -> center_tile_x_ l + blocks_ l < INT_MAX
                   /\ center_tile_y_ l + blocks_ l < INT_MAX) ->
  loops_end l.
Proof.
  intros Hz (Hx1 & Hx2 & Hy1 & Hy2) H31.
  unfold loops_end, max_x, max_y, maxTiles, int_add.
  rewrite maxTiles_of_spec, !to_int_small by done.
  destruct (Z.eq_dec (zoom_ l) 31) as [E | E].
  - destruct (H31 E). lia.
  - pose proof (pow2_bounds (zoom_ l)). unfold INT_MAX. lia.
Qed.

(** Every index has a URL, whatever the template. *)
Lemma resolvable_all l w idx : resolvable l w idx.
Proof. intros i _ _. apply uriForTile_total. Qed.

(** [start], when its loops end, told from the world it starts in. *)
Lemma start_total_spec fuel l w :
  loops_end l -> (fuel_for l <= fuel)%nat ->
  start cpr_Get fuel l w
  = (Ret (set_tiles l (tile_of l <$> filter (fun i => ok l w i) (grid l))),
     {| fs := foldl (fun m i => put l w i m) (fs w) (grid l);
        trace := trace w ++ (grid l ≫= events l w) |}).
Proof. intros Hend Hfuel. apply start_spec; [done | done | apply resolvable_all]. Qed.

(** Rows that hold no index: a walk that returns has changed nothing. *)
Lemma loop_y_nothing fuel inner l y my mnx mx w l' w' :
  mx < mnx \/ my < y ->
  loop_y cpr_Get fuel inner l y my mnx mx w = (Ret l', w') ->
  l' = l /\ w' = w.
Proof.
  revert y. induction fuel as [| fuel IH]; intros y Hempty; cbn [loop_y];
    [discriminate |].
  destruct (Z.leb_spec y my) as [Hle | Hgt]; [| by intros [= <- <-]].
  destruct Hempty as [Hx | ?]; [| lia].
  destruct inner as [| inner]; [discriminate |]. cbn [loop_x].
  destruct (Z.leb_spec mnx mx) as [? | _]; [lia |].
  apply IH. by left.
Qed.

(** C1, on the code. Where no sum or difference of the bounds leaves the
    range of [int] and, at zoom 31, both sums are below [INT_MAX], [start]
    returns with enough fuel and the paths it probes are those of the grid
    of the specification, in row-major order: [y] outer, [x] inner, each
    ascending.  A path names one index only, that grid has each index once,
    and [(x, y)] is in it exactly when
    [max 0 (cx - R) <= x <= min (2^z - 1) (cx + R)] and likewise for [y].
    But the code adds [cx + R] and [cy + R] in [int] before it takes the
    minimum: when a sum is above [INT_MAX] it wraps around to a negative
    bound, the grid the loops walk is empty, and a [start] that returns has
    probed nothing and lists no tile, although the centre tile is in the
    grid of the specification; when it is [cy + R] that wraps, [start]
    returns at once. *)
Theorem start_bounds_overflow (fuel : nat) (l : TileLoader) (w : World) :
  (0 <= zoom_ l <= 31 ->
   no_wrap l ->
   (zoom_ l = 31 -> center_tile_x_ l + blocks_ l < INT_MAX
                    /\ center_tile_y_ l + blocks_ l < INT_MAX) ->
   (fuel_for l <= fuel)%nat ->
   exists l' w', start cpr_Get fuel l w = (Ret l', w')
                 /\ probes (trace w')
                    = probes (trace w) ++ (path_of l <$> spec_grid l))
  /\ (forall i j, path_of l i = path_of l j -> i = j)
  /\ NoDup (spec_grid l)
  /\ (forall x y,
        (x, y) ∈ spec_grid l <->
        (Z.max 0 (center_tile_x_ l - blocks_ l) <= x
           <= Z.min (2 ^ zoom_ l - 1) (center_tile_x_ l + blocks_ l))
        /\ (Z.max 0 (center_tile_y_ l - blocks_ l) <= y
             <= Z.min (2 ^ zoom_ l - 1) (center_tile_y_ l + blocks_ l)))
  /\ (0 <= zoom_ l <= 31 ->
      0 <= center_tile_x_ l <= 2 ^ zoom_ l - 1 ->
      0 <= center_tile_y_ l <= 2 ^ zoom_ l - 1 ->
      0 <= blocks_ l <= INT_MAX ->
      INT_MAX < center_tile_x_ l + blocks_ l
      \/ INT_MAX < center_tile_y_ l + blocks_ l ->
      (center_tile_x_ l, center_tile_y_ l) ∈ spec_grid l
      /\ grid l = []
      /\ (forall l' w', start cpr_Get fuel l w = (Ret l', w') ->
                        w' = w /\ tiles_ l' = [])
      /\ (INT_MAX < center_tile_y_ l + blocks_ l ->
          forall n, start cpr_Get (S n) l w = (Ret (abort l), w))).
Proof.
  split; [| split; [apply path_of_inj | split; [| split]]].
  - intros Hz Hwrap H31 Hfuel.
    pose proof (grid_spec_grid l Hz Hwrap) as Hgrid.
    eexists _, _. split.
    + apply start_total_spec; [by apply loops_end_spec | done].
    + simpl. unfold probes at 1. rewrite omap_app.
      fold (probes (trace w)). fold (probes (grid l ≫= events l w)).
      by rewrite probes_events, Hgrid.
  - apply NoDup_row_major; apply NoDup_seqZ.
  - intros x y. unfold spec_grid.
    by rewrite elem_of_row_major, !elem_of_range.
  - intros Hz Hcx Hcy HR Hover.
    assert (Hpow : 2 ^ zoom_ l <= 2 ^ 31) by (apply Z.pow_le_mono_r; lia).
    assert (Hmax : 0 <= maxTiles l).
    { unfold maxTiles. rewrite maxTiles_of_spec by done.
      pose proof (Z.pow_pos_nonneg 2 (zoom_ l)). lia. }
    assert (Hwrapped : forall c, 0 <= c <= 2 ^ zoom_ l - 1 ->
               INT_MAX < c + blocks_ l -> int_add c (blocks_ l) < 0).
    { intros c Hc Hsum. unfold int_add, to_int, INT_MAX in *.
      Z.div_mod_to_equations. lia. }
    assert (Hempty : max_x l < min_x l \/ max_y l < min_y l).
    { unfold max_x, max_y, min_x, min_y.
      destruct Hover as [Hx | Hy];
        [left; pose proof (Hwrapped _ Hcx Hx)
        | right; pose proof (Hwrapped _ Hcy Hy)]; lia. }
    split; [| split; [| split]].
    + unfold spec_grid. rewrite elem_of_row_major, !elem_of_range. lia.
    + unfold grid.
      destruct Hempty as [Hx | Hy].
      * rewrite (range_nil (min_x l)) by lia. unfold row_major.
        induction (range (min_y l) (max_y l)) as [| a r IH]; [done |].
        by rewrite bind_cons, fmap_nil, app_nil_l.
      * by rewrite (range_nil (min_y l)) by lia.
    + intros l' w' Hret. unfold start in Hret.
      apply loop_y_nothing in Hret as [-> ->]; [done |].
      change (min_x (abort l)) with (min_x l).
      change (max_x (abort l)) with (max_x l).
      change (min_y (abort l)) with (min_y l).
      change (max_y (abort l)) with (max_y l). done.
    + intros Hy n. unfold start. cbn [loop_y].
      change (min_y (abort l)) with (min_y l).
      change (max_y (abort l)) with (max_y l).
      pose proof (Hwrapped _ Hcy Hy).
      destruct (Z.leb_spec (min_y l) (max_y l)) as [Hle | _]; [| done].
      unfold max_y, min_y in Hle. lia.
Qed.


(** C3. A round of the loop whose file is there pushes the tile with that
    path and does nothing else than the probe: no request, no write; the
    inner loop goes on with [x + 1].
    When the loops of [start] end, an index of the grid that is cached when
    [start] begins contributes the probe alone to the trace, its tile is in
    the list with the cached path, and what is at that path stays. *)
Theorem cache_hit_needs_no_request (fuel : nat) (l : TileLoader) (w : World) :
  (forall x y w1,
      fs_exists w1 (path_of l (x, y)) = true ->
      let l2 := push_back l (mkMapTile x y (to_int (zoom_ l)) (path_of l (x, y))) in
      let w2 := emit w1 [ev_exists (path_of l (x, y))] in
      step l x y w1 = (Ret l2, w2)
      /\ forall n mx, x <= mx ->
           loop_x cpr_Get (S n) l y x mx w1
           = loop_x cpr_Get n l2 y (int_add x 1) mx w2)
  /\ (loops_end l -> (fuel_for l <= fuel)%nat ->
      exists l' w',
        start cpr_Get fuel l w = (Ret l', w')
        /\ trace w' = trace w ++ (grid l ≫= events l w)
        /\ forall i,
             i ∈ grid l -> cached l w i = true ->
             events l w i = [ev_exists (path_of l i)]
             /\ requests (events l w i) = []
             /\ tile_of l i ∈ tiles_ l'
             /\ path_ (tile_of l i) = path_of l i
             /\ fs w' !! path_of l i = fs w !! path_of l i).
Proof.
  split.
  - intros x y w1 Hhit l2 w2.
    assert (Hstep : step l x y w1 = (Ret l2, w2)).
    { unfold load_tile.
      change (cachedPathForTile l x y (to_int (zoom_ l))) with (path_of l (x, y)).
      by rewrite Hhit. }
    split; [done |]. intros n mx Hle. simpl.
    destruct (Z.leb_spec x mx) as [_ | ?]; [| lia]. by rewrite Hstep.
  - intros Hend Hfuel. eexists _, _.
    split; [by apply start_total_spec |]. simpl.
    split; [done |].
    intros i Hi Hc.
    assert (Hev : events l w i = [ev_exists (path_of l i)]).
    { unfold tile_events. by rewrite Hc. }
    rewrite Hev. repeat split.
    + rewrite elem_of_resolved_tiles. split; [done |].
      unfold resolved. by rewrite Hc.
    + rewrite foldl_put_unresolved by (by left). done.
Qed.

End Resolution.

(* ===================================================================== *)
(** ** A loop bound of [INT_MAX] *)
(* ===================================================================== *)

Section Divergence.

Context {P : Platform}.
Variable cpr_Get : string -> Response.

Lemma load_tile_returns l x y w :
  returns (uriForTile l x y) ->
  exists ts w', load_tile cpr_Get l x y w = (Ret (set_tiles l ts), w').
Proof.
  intros [u Hu]. unfold load_tile. rewrite Hu.
  destruct (fs_exists w _); [by eexists _, _ |].
  destruct (status_code (cpr_Get u) =? 200); [by eexists _, _ |].
  exists (tiles_ l). eexists. by destruct l.
Qed.

(** With [max_x = INT_MAX] the test [x <= max_x] holds for every [int], and
    [x++] wraps around: the inner loop uses up any fuel. *)
Lemma loop_x_never_ends fuel l y x w :
  is_int x ->
  (forall x', returns (uriForTile l x' y)) ->
  (loop_x cpr_Get fuel l y x INT_MAX w).1 = OutOfFuel.
Proof.
  revert l x w. induction fuel as [| fuel IH]; intros l x w Hx Hurl; [done |].
  simpl. destruct (Z.leb_spec x INT_MAX) as [_ | Hgt]; [| unfold is_int in Hx; lia].
  destruct (load_tile_returns l x y w (Hurl x)) as (ts & w' & ->).
  apply IH; [apply to_int_range | done].
Qed.

End Divergence.

(* ===================================================================== *)
(** ** Cache file names *)
(* ===================================================================== *)

Lemma lacks_uint c u :
  (forall d, In d (list_ascii_of_string "0123456789") -> d <> c) ->
  lacks c (NilEmpty.string_of_uint u).
Proof.
  intros Hc. induction u; simpl; try done; (split; [apply Hc; simpl; tauto | done]).
Qed.

(** The decimal text of an integer holds digits and a minus sign only. *)
Lemma lacks_to_string c z :
  (forall d, In d (list_ascii_of_string "-0123456789") -> d <> c) ->
  lacks c (to_string z).
Proof.
  intros Hc.
  assert (Hd : forall d, In d (list_ascii_of_string "0123456789") -> d <> c).
  { intros d Hin. apply Hc. simpl in *. tauto. }
  unfold to_string. destruct (Z.to_int z) as [u | u]; simpl.
  - destruct u; try (by apply lacks_uint). simpl. split; [| done].
    apply Hd. simpl. tauto.
  - split; [apply Hc; simpl; tauto |].
    destruct u; try (by apply lacks_uint). simpl. split; [| done].
    apply Hd. simpl. tauto.
Qed.

Lemma lacks_split c a a' r r' :
  lacks c a -> lacks c a' ->
  (a ++ String c r = a' ++ String c r')%string -> a = a' /\ r = r'.
Proof.
  revert a'. induction a as [| x a IH]; intros [| x' a']; simpl.
  - intros _ _ [= ->]. done.
  - intros _ [Hc _] [= <- _]. done.
  - intros [Hc _] _ [= -> _]. done.
  - intros [_ Ha] [_ Ha'] [= -> H]. destruct (IH _ Ha Ha' H) as [-> ->]. done.
Qed.

Lemma cachedNameForTile_inj_z x y z z' :
  cachedNameForTile x y z = cachedNameForTile x y z' -> z = z'.
Proof.
  unfold cachedNameForTile.
  intros H. do 5 apply append_inj_r in H.
  apply (lacks_split "."%char) in H as [H _].
  - by apply to_string_inj.
  - apply lacks_to_string. intros d Hd. simpl in Hd.
    repeat (destruct Hd as [<- | Hd]; [discriminate |]). done.
  - apply lacks_to_string. intros d Hd. simpl in Hd.
    repeat (destruct Hd as [<- | Hd]; [discriminate |]). done.
Qed.

(** X1. Two cache paths of one loader are equal only for the same tile:
    the file name encodes [x], [y] and [z] without loss, negative numbers
    included. *)
Theorem cache_path_names_one_tile (l : TileLoader) (x y z x' y' z' : Z) :
  cachedPathForTile l x y z = cachedPathForTile l x' y' z'
  <-> (x, y, z) = (x', y', z').
Proof.
  split; [| by intros [= -> -> ->]].
  intros H. destruct (cachedPathForTile_inj _ _ _ _ _ _ _ H) as [-> ->].
  unfold cachedPathForTile in H.
  destruct (path_append_prefix (cache_path_ l)) as [pre Hpre].
  rewrite !Hpre in H. apply append_inj_r, cachedNameForTile_inj_z in H.
  by subst.
Qed.

(* ===================================================================== *)
(** ** What the template substitution never does *)
(* ===================================================================== *)

Section Substitution.

Context {P : Platform}.

Lemma uriForTile_settled l x y : settled (uriForTile l x y).
Proof. left. apply uriForTile_total. Qed.

(** X2. [uriForTile] never throws and its scans always end, whatever the
    template and the index: [std::string::replace] is never called with a
    position beyond the end of the string.  The call either returns a URL
    or comes to an end the model leaves open; where a scan through
    iterators that a growing replacement has left dangling reads what the
    platform says, it returns (lemma [uriForTile_total]). *)
Theorem uriForTile_never_throws (l : TileLoader) (x y : Z) :
  (exists u, uriForTile l x y = Ret u) \/ uriForTile l x y = Unspecified.
Proof. exact (uriForTile_settled l x y). Qed.

(* ===================================================================== *)
(** ** Templates with no placeholder, and with one *)
(* ===================================================================== *)

Lemma list_ascii_app (a b : string) :
  list_ascii_of_string (a ++ b)
  = list_ascii_of_string a ++ list_ascii_of_string b.
Proof.
  induction a as [| x a IH]; [done |].
  change (x :: list_ascii_of_string (a ++ b)
          = x :: (list_ascii_of_string a ++ list_ascii_of_string b)).
  by rewrite IH.
Qed.

Lemma string_of_list_app (a b : list ascii) :
  string_of_list_ascii (a ++ b)
  = (string_of_list_ascii a ++ string_of_list_ascii b)%string.
Proof.
  induction a as [| x a IH]; [done |].
  change (String x (string_of_list_ascii (a ++ b))
          = String x (string_of_list_ascii a ++ string_of_list_ascii b)%string).
  by rewrite IH.
Qed.

Lemma regex_search_cons_None ex a s :
  regex_search ex (a :: s) = None ->
  matches_here ex (literal ex) (a :: s) = false /\ regex_search ex s = None.
Proof.
  simpl. destruct (matches_here ex (literal ex) (a :: s)); [discriminate |].
  by destruct (regex_search ex s).
Qed.

Lemma regex_search_drop ex s k :
  regex_search ex s = None -> regex_search ex (drop k s) = None.
Proof.
  revert s. induction k as [| k IH]; intros [| a s] H; try done.
  simpl. apply IH. by apply regex_search_cons_None in H as [_ H].
Qed.

Lemma matches_here_take ex pat s n :
  matches_here ex pat (take n s) = true -> matches_here ex pat s = true.
Proof.
  revert s n. induction pat as [| p pat IH]; intros s n; [done |].
  destruct s as [| a s], n as [| n]; simpl; try done.
  intros [Hp H]%andb_prop. rewrite Hp. simpl. by eapply IH.
Qed.

Lemma regex_search_take ex s n :
  regex_search ex s = None -> regex_search ex (take n s) = None.
Proof.
  revert n. induction s as [| a s IH]; intros [| n] H; try done.
  apply regex_search_cons_None in H as [Hm Hs].
  change (take (S n) (a :: s)) with (a :: take n s). simpl.
  destruct (matches_here ex (literal ex) (a :: take n s)) eqn:Hm'.
  - apply (matches_here_take ex _ (a :: s) (S n)) in Hm'. congruence.
  - by rewrite IH.
Qed.

(** The letters of the three placeholders the loader looks for. *)
Lemma placeholder_letter c :
  In c ["x"; "y"; "z"]%char ->
  c = "x"%char \/ c = "y"%char \/ c = "z"%char.
Proof. simpl. intuition. Qed.

Lemma tolower_brace a : tolower a = "{"%char -> a = "{"%char.
Proof.
  destruct a as [[] [] [] [] [] [] [] []]; vm_compute; intros H;
    (reflexivity || discriminate).
Qed.

(** Where no opening brace is, no placeholder is. *)
Lemma regex_search_no_brace c range :
  Forall (fun a => a <> "{"%char) range ->
  regex_search (placeholder c) range = None.
Proof.
  induction 1 as [| a range Ha _ IH]; [done |]. simpl.
  unfold char_matches at 1. simpl.
  rewrite bool_decide_eq_false_2.
  - simpl. by rewrite IH.
  - change (tolower "{") with "{"%char. intros H. by apply Ha, tolower_brace.
Qed.

Lemma lacks_Forall c s :
  lacks c s -> Forall (fun a => a <> c) (list_ascii_of_string s).
Proof.
  induction s as [| a s IH]; simpl; [constructor |].
  intros [Ha Hs]. constructor; auto.
Qed.

Lemma replaceRegex_matchless ex str replace :
  matchless ex str -> replaceRegex ex str replace = Ret (str, 0).
Proof.
  unfold matchless, replaceRegex. intros H. simpl.
  rewrite drop_0, H. simpl. by rewrite string_of_list_ascii_of_string.
Qed.

(** X3. A template in which none of the three placeholders occurs is the URL
    of every tile, whatever the size of the index; so is, in particular, a
    template without an opening brace. *)
Theorem uriForTile_without_placeholder (l : TileLoader) (x y : Z) :
  (matchless (placeholder "x") (object_uri_ l)
   /\ matchless (placeholder "y") (object_uri_ l)
   /\ matchless (placeholder "z") (object_uri_ l)
   -> uriForTile l x y = Ret (object_uri_ l))
  /\ (lacks "{" (object_uri_ l) -> uriForTile l x y = Ret (object_uri_ l)).
Proof.
  assert (Hgen : matchless (placeholder "x") (object_uri_ l)
                 /\ matchless (placeholder "y") (object_uri_ l)
                 /\ matchless (placeholder "z") (object_uri_ l)
                 -> uriForTile l x y = Ret (object_uri_ l)).
  { intros (Hx & Hy & Hz). unfold uriForTile.
    rewrite (replaceRegex_matchless _ _ _ Hx). simpl.
    rewrite (replaceRegex_matchless _ _ _ Hy). simpl.
    by rewrite (replaceRegex_matchless _ _ _ Hz). }
  split; [exact Hgen |].
  intros H. apply Hgen.
  repeat split; apply regex_search_no_brace, lacks_Forall, H.
Qed.

Lemma matches_here_3 ex p1 p2 p3 a b d rest :
  matches_here ex [p1; p2; p3] (a :: b :: d :: rest)
  = char_matches ex p1 a && (char_matches ex p2 b && char_matches ex p3 d).
Proof. simpl. by rewrite andb_true_r. Qed.

Lemma matches_here_short ex pat range :
  (length range < length pat)%nat -> matches_here ex pat range = false.
Proof.
  intros H. destruct (matches_here ex pat range) eqn:Hm; [| done].
  apply matches_here_length in Hm. lia.
Qed.

Lemma regex_search_short ex range :
  (length range < length (literal ex))%nat -> regex_search ex range = None.
Proof.
  induction range as [| a range IH]; intros H; [done |]. simpl.
  rewrite matches_here_short by done. rewrite IH; [done | simpl in H; lia].
Qed.

Lemma regex_search_cons ex a s :
  regex_search ex (a :: s)
  = if matches_here ex (literal ex) (a :: s) then Some 0%nat
    else S <$> regex_search ex s.
Proof. reflexivity. Qed.

(** The letter of a placeholder is no brace and no NUL, and the closing
    brace is neither the opening one nor NUL. *)
Lemma placeholder_chars c :
  In c ["x"; "y"; "z"]%char ->
  char_matches (placeholder c) c "{" = false
  /\ char_matches (placeholder c) c NUL = false
  /\ char_matches (placeholder c) "}" "{" = false
  /\ char_matches (placeholder c) "}" NUL = false
  /\ char_matches (placeholder c) "{" NUL = false
  /\ char_matches (placeholder c) "{" "{" = true
  /\ char_matches (placeholder c) "}" "}" = true
  /\ tolower c = c.
Proof.
  intros H. apply placeholder_letter in H as [-> | [-> | ->]];
    repeat split; reflexivity.
Qed.

(** A match cannot begin before a placeholder and end inside it. *)
Lemma no_straddle c c' a pre post :
  In c ["x"; "y"; "z"]%char ->
  matches_here (placeholder c) ["{"; c; "}"]%char (a :: pre) = false ->
  matches_here (placeholder c) ["{"; c; "}"]%char
               (a :: pre ++ "{" :: c' :: "}" :: post)%char = false.
Proof.
  intros Hc H.
  destruct (placeholder_chars c Hc) as (H1 & _ & H3 & _).
  destruct pre as [| b [| d rest]].
  - change (matches_here (placeholder c) ["{"; c; "}"]%char
              (a :: "{" :: c' :: "}" :: post)%char = false).
    by rewrite matches_here_3, H1, andb_false_r.
  - change (matches_here (placeholder c) ["{"; c; "}"]%char
              (a :: b :: "{" :: c' :: "}" :: post)%char = false).
    by rewrite matches_here_3, H3, !andb_false_r.
  - change (matches_here (placeholder c) ["{"; c; "}"]%char
              (a :: b :: d :: (rest ++ "{" :: c' :: "}" :: post))%char = false).
    by rewrite matches_here_3 in *.
Qed.

(** The leftmost match of a template whose head has none is the placeholder
    that follows the head. *)
Lemma regex_search_first c c' pre post :
  In c ["x"; "y"; "z"]%char ->
  tolower c' = c ->
  regex_search (placeholder c) pre = None ->
  regex_search (placeholder c) (pre ++ "{" :: c' :: "}" :: post)%char
  = Some (length pre).
Proof.
  intros Hc Hc' H.
  destruct (placeholder_chars c Hc) as (_ & _ & _ & _ & _ & H6 & H7 & H8).
  induction pre as [| a pre IH].
  - change (regex_search (placeholder c) ("{" :: c' :: "}" :: post)%char = Some 0%nat).
    rewrite regex_search_cons.
    change (literal (placeholder c)) with ["{"; c; "}"]%char.
    rewrite matches_here_3, H6, H7. unfold char_matches. simpl.
    rewrite bool_decide_eq_true_2; [done | congruence].
  - apply regex_search_cons_None in H as [Hm Hs].
    change (regex_search (placeholder c) (a :: (pre ++ "{" :: c' :: "}" :: post))%char
            = Some (S (length pre))).
    rewrite regex_search_cons.
    change (literal (placeholder c)) with ["{"; c; "}"]%char in *.
    rewrite (no_straddle c c' a pre post Hc Hm).
    by rewrite IH.
Qed.

(** Behind a text without a match, a NUL and at most two more bytes hold no
    match either. *)
Lemma nul_barrier c a s t :
  In c ["x"; "y"; "z"]%char ->
  matches_here (placeholder c) ["{"; c; "}"]%char (a :: s) = false ->
  matches_here (placeholder c) ["{"; c; "}"]%char (a :: s ++ NUL :: t) = false.
Proof.
  intros Hc H.
  destruct (placeholder_chars c Hc) as (_ & H2 & _ & H4 & _).
  destruct s as [| b [| d rest]].
  - destruct t as [| e t]; [by apply matches_here_short; simpl; lia |].
    change (matches_here (placeholder c) ["{"; c; "}"]%char
              (a :: NUL :: e :: t) = false).
    by rewrite matches_here_3, H2, andb_false_r.
  - change (matches_here (placeholder c) ["{"; c; "}"]%char
              (a :: b :: NUL :: t) = false).
    by rewrite matches_here_3, H4, !andb_false_r.
  - change (matches_here (placeholder c) ["{"; c; "}"]%char
              (a :: b :: d :: (rest ++ NUL :: t)) = false).
    by rewrite matches_here_3 in *.
Qed.

Lemma regex_search_stale c s t :
  In c ["x"; "y"; "z"]%char ->
  (length t <= 2)%nat ->
  regex_search (placeholder c) s = None ->
  regex_search (placeholder c) (s ++ NUL :: t) = None.
Proof.
  intros Hc Ht H.
  destruct (placeholder_chars c Hc) as (_ & _ & _ & _ & H5 & _).
  induction s as [| a s IH].
  - change (regex_search (placeholder c) (NUL :: t) = None).
    rewrite regex_search_cons.
    rewrite (regex_search_short _ t) by (simpl; lia).
    destruct t as [| b [| d t]];
      [by rewrite matches_here_short by (simpl; lia) ..|].
    change (literal (placeholder c)) with ["{"; c; "}"]%char.
    by rewrite matches_here_3, H5.
  - apply regex_search_cons_None in H as [Hm Hs].
    change (regex_search (placeholder c) (a :: (s ++ NUL :: t)) = None).
    rewrite regex_search_cons.
    change (literal (placeholder c)) with ["{"; c; "}"]%char in *.
    rewrite (nul_barrier c a s t Hc Hm). by rewrite IH.
Qed.

Lemma replaceRegex_loop_S fuel ex replace str buf cap start live count :
  replaceRegex_loop (S fuel) ex replace str buf cap start live count
  = let range := if live then buf else imap (freed str) buf in
    match regex_search ex (drop start range) with
    | None => Ret (str, count)
    | Some position =>
        let len := length (literal ex) in
        if bool_decide (length str < position)%nat then
          Throw (out_of_range "basic_string::replace")
        else
          let str' := string_replace str position len replace in
          let fits :=
            live && ((length str' <=? length buf)%nat
                     || (length str' <=? cap)%nat) in
          let buf' :=
            if fits
            then take (length buf) (str' ++ NUL :: drop (S (length str')) buf)
            else buf in
          replaceRegex_loop fuel ex replace str' buf' cap
            (start + position + len) fits (count + 1)
    end.
Proof. reflexivity. Qed.

Lemma string_replace_occurrence pre c' post replace :
  string_replace (pre ++ "{" :: c' :: "}" :: post)%char (length pre) 3 replace
  = pre ++ replace ++ post.
Proof.
  unfold string_replace. rewrite take_app_length.
  by rewrite (drop_app_add' pre _ (length pre) 3).
Qed.

(** A text with no opening brace holds no match and lets none begin. *)
Lemma regex_search_text c a b :
  Forall (fun d => d <> "{"%char) a ->
  regex_search (placeholder c) b = None ->
  regex_search (placeholder c) (a ++ b) = None.
Proof.
  intros Ha Hb. induction Ha as [| a0 a Ha0 _ IH]; [done |].
  change (regex_search (placeholder c) (a0 :: (a ++ b)) = None).
  rewrite regex_search_cons, IH.
  change (literal (placeholder c)) with ["{"; c; "}"]%char.
  cbn [matches_here]. unfold char_matches at 1. simpl icase. cbv iota.
  rewrite bool_decide_eq_false_2; [done |].
  change (tolower "{") with "{"%char. intros H. symmetry in H.
  by apply tolower_brace in H.
Qed.

(** The first round on a template with one placeholder: the placeholder is
    found and replaced, and the scan goes on behind it. *)
Lemma replaceRegex_loop_first c c' pre post replace cap fuel :
  In c ["x"; "y"; "z"]%char ->
  tolower c' = c ->
  regex_search (placeholder c) pre = None ->
  replaceRegex_loop (S fuel) (placeholder c) replace
    (pre ++ "{" :: c' :: "}" :: post)%char
    (pre ++ "{" :: c' :: "}" :: post)%char cap 0%nat true 0
  = replaceRegex_loop fuel (placeholder c) replace (pre ++ replace ++ post)
      (if (length (pre ++ replace ++ post)
           <=? length (pre ++ "{" :: c' :: "}" :: post)%char)%nat
          || (length (pre ++ replace ++ post) <=? cap)%nat
       then take (length (pre ++ "{" :: c' :: "}" :: post)%char)
              ((pre ++ replace ++ post)
                 ++ NUL :: drop (S (length (pre ++ replace ++ post)))
                                (pre ++ "{" :: c' :: "}" :: post)%char)
       else (pre ++ "{" :: c' :: "}" :: post)%char)
      cap (length pre + 3)
      ((length (pre ++ replace ++ post)
        <=? length (pre ++ "{" :: c' :: "}" :: post)%char)%nat
       || (length (pre ++ replace ++ post) <=? cap)%nat) 1.
Proof.
  intros Hc Hc' Hpre.
  set (str := (pre ++ "{" :: c' :: "}" :: post)%char).
  set (str' := pre ++ replace ++ post).
  assert (Hstr : length str = (length pre + 3 + length post)%nat).
  { unfold str. rewrite length_app. simpl. lia. }
  rewrite replaceRegex_loop_S. cbv zeta. cbv iota. rewrite drop_0.
  unfold str at 1. rewrite (regex_search_first c c' pre post Hc Hc' Hpre).
  change (length (literal (placeholder c))) with 3%nat.
  rewrite bool_decide_eq_false_2 by lia.
  fold str.
  assert (Hrep : string_replace str (length pre) 3 replace = str')
    by apply string_replace_occurrence.
  rewrite !Hrep. cbn [andb]. reflexivity.
Qed.

(** One placeholder in a template, a replacement of at most three
    characters: the first round replaces it in place, the second finds
    nothing in what is left of the buffer. *)
Lemma replaceRegex_loop_single c c' pre post replace cap fuel :
  In c ["x"; "y"; "z"]%char ->
  tolower c' = c ->
  regex_search (placeholder c) pre = None ->
  regex_search (placeholder c) post = None ->
  (length replace <= 3)%nat ->
  replaceRegex_loop (S (S fuel)) (placeholder c) replace
    (pre ++ "{" :: c' :: "}" :: post)%char
    (pre ++ "{" :: c' :: "}" :: post)%char cap 0%nat true 0
  = Ret (pre ++ replace ++ post, 1).
Proof.
  intros Hc Hc' Hpre Hpost Hlen.
  rewrite replaceRegex_loop_first by done.
  set (str := (pre ++ "{" :: c' :: "}" :: post)%char).
  assert (Hstr : length str = (length pre + 3 + length post)%nat).
  { unfold str. rewrite length_app. simpl. lia. }
  assert (Hnew : length (pre ++ replace ++ post)
                 = (length pre + length replace + length post)%nat).
  { rewrite !length_app. lia. }
  rewrite (proj2 (Nat.leb_le _ _)) by lia. cbn [orb]. cbv iota.
  rewrite replaceRegex_loop_S. cbv zeta. cbv iota.
  replace (length str) with ((length pre + 3) + length post)%nat at 1 by lia.
  rewrite <- take_drop_commute, regex_search_take; [done |].
  rewrite <- (app_assoc pre), <- (app_assoc replace).
  rewrite drop_app_ge by lia. rewrite drop_app_ge by lia.
  apply regex_search_drop, regex_search_stale; [done | | done].
  rewrite length_drop. lia.
Qed.

(** A placeholder at the very end of the template: nothing is left to scan,
    whatever the length of the replacement. *)
Lemma replaceRegex_loop_last c c' pre replace cap fuel :
  In c ["x"; "y"; "z"]%char ->
  tolower c' = c ->
  regex_search (placeholder c) pre = None ->
  replaceRegex_loop (S (S fuel)) (placeholder c) replace
    (pre ++ "{" :: c' :: "}" :: [])%char
    (pre ++ "{" :: c' :: "}" :: [])%char cap 0%nat true 0
  = Ret (pre ++ replace, 1).
Proof.
  intros Hc Hc' Hpre.
  rewrite replaceRegex_loop_first by done. rewrite !app_nil_r.
  set (str := (pre ++ "{" :: c' :: "}" :: [])%char).
  assert (Hstr : length str = (length pre + 3)%nat).
  { unfold str. rewrite length_app. simpl. lia. }
  rewrite replaceRegex_loop_S. cbv zeta.
  set (fits := (length (pre ++ replace) <=? length str)%nat
               || (length (pre ++ replace) <=? cap)%nat).
  set (buf := if fits
              then take (length str)
                     ((pre ++ replace)
                        ++ NUL :: drop (S (length (pre ++ replace))) str)
              else str).
  assert (Hbuf : length buf = length str).
  { unfold buf. destruct fits; [| done].
    rewrite length_take, length_app. simpl. rewrite length_drop. lia. }
  set (range := if fits then buf else imap (freed (pre ++ replace)) buf).
  assert (Hrange : length range = length str).
  { unfold range. destruct fits; [done | by rewrite length_imap]. }
  by rewrite drop_ge by lia.
Qed.

(** A replacement that the capacity has room for, or one after which the
    block that was given back holds no match behind the placeholder. *)
Lemma replaceRegex_loop_grown c c' pre post replace cap fuel :
  In c ["x"; "y"; "z"]%char ->
  tolower c' = c ->
  regex_search (placeholder c) pre = None ->
  regex_search (placeholder c) post = None ->
  Forall (fun d => d <> "{"%char) replace ->
  (length (pre ++ replace ++ post) <= cap)%nat
  \/ regex_search (placeholder c)
       (drop (length pre + 3)
             (imap (freed (pre ++ replace ++ post))
                   (pre ++ "{" :: c' :: "}" :: post)%char)) = None ->
  replaceRegex_loop (S (S fuel)) (placeholder c) replace
    (pre ++ "{" :: c' :: "}" :: post)%char
    (pre ++ "{" :: c' :: "}" :: post)%char cap 0%nat true 0
  = Ret (pre ++ replace ++ post, 1).
Proof.
  intros Hc Hc' Hpre Hpost Hrep Hroom.
  rewrite replaceRegex_loop_first by done.
  set (str := (pre ++ "{" :: c' :: "}" :: post)%char) in *.
  set (str' := pre ++ replace ++ post) in *.
  assert (Hstr : length str = (length pre + 3 + length post)%nat).
  { unfold str. rewrite length_app. simpl. lia. }
  assert (Hnew : length str'
                 = (length pre + length replace + length post)%nat).
  { unfold str'. rewrite !length_app. lia. }
  rewrite replaceRegex_loop_S. cbv zeta.
  destruct ((length str' <=? length str)%nat || (length str' <=? cap)%nat)
    eqn:Hfits; cbv iota.
  - replace (length str) with ((length pre + 3) + length post)%nat at 1 by lia.
    rewrite <- take_drop_commute, regex_search_take; [done |].
    unfold str'. rewrite <- (app_assoc pre), <- (app_assoc replace).
    rewrite drop_app_ge by lia.
    replace (length pre + 3 - length pre)%nat with 3%nat by lia.
    destruct (Nat.le_gt_cases (length replace) 3) as [Hshort | Hlong].
    + rewrite drop_app_ge by lia.
      apply regex_search_drop, regex_search_stale; [done | | done].
      rewrite length_drop. fold str'. lia.
    + rewrite drop_app_le by lia.
      apply regex_search_text; [by apply Forall_drop |].
      apply regex_search_stale; [done | | done].
      rewrite length_drop. fold str'. lia.
  - destruct Hroom as [Hcap | Hfreed]; [| by rewrite Hfreed].
    apply orb_false_iff in Hfits as [_ Hf]. apply Nat.leb_gt in Hf. lia.
Qed.

Lemma length_list_ascii s : length (list_ascii_of_string s) = String.length s.
Proof. induction s as [| a s IH]; simpl; [done | by rewrite IH]. Qed.

Lemma list_ascii_occurrence pre c' post :
  list_ascii_of_string (pre ++ occurrence c' ++ post)
  = (list_ascii_of_string pre
       ++ "{" :: c' :: "}" :: list_ascii_of_string post)%char.
Proof. by rewrite !list_ascii_app. Qed.

Lemma fuel_occurrence (pre post : list ascii) c' :
  S (length (pre ++ "{" :: c' :: "}" :: post)%char)
  = S (S (S (S (length pre + length post)))).
Proof. rewrite length_app. simpl. lia. Qed.

(** The one placeholder of a template replaced by a text no longer than
    itself. *)
Lemma replaceRegex_one c c' pre post replace :
  In c ["x"; "y"; "z"]%char ->
  tolower c' = c ->
  matchless (placeholder c) pre ->
  matchless (placeholder c) post ->
  (String.length replace <= 3)%nat ->
  replaceRegex (placeholder c) (pre ++ occurrence c' ++ post) replace
  = Ret ((pre ++ replace ++ post)%string, 1).
Proof.
  intros Hc Hc' Hpre Hpost Hlen. unfold replaceRegex.
  rewrite list_ascii_occurrence, fuel_occurrence.
  rewrite replaceRegex_loop_single by (done || by rewrite length_list_ascii).
  simpl. by rewrite !string_of_list_app, !string_of_list_ascii_of_string.
Qed.

(** X4. A template with one occurrence of a placeholder, in either case of
    its letter, and none before it: when no other occurrence follows and the
    replacement has at most three characters, [replaceRegex] puts the
    replacement in its place and returns 1; when the placeholder ends the
    template it does so for a replacement of any length. *)
Theorem replaceRegex_single_occurrence (c c' : ascii) (pre post replace : string) :
  In c ["x"; "y"; "z"]%char ->
  tolower c' = c ->
  matchless (placeholder c) pre ->
  (matchless (placeholder c) post -> (String.length replace <= 3)%nat ->
   replaceRegex (placeholder c) (pre ++ occurrence c' ++ post) replace
   = Ret ((pre ++ replace ++ post)%string, 1))
  /\ replaceRegex (placeholder c) (pre ++ occurrence c') replace
     = Ret ((pre ++ replace)%string, 1).
Proof.
  intros Hc Hc' Hpre. split; [intros; by apply replaceRegex_one |].
  unfold replaceRegex.
  rewrite !list_ascii_app.
  change (list_ascii_of_string (occurrence c')) with ["{"; c'; "}"]%char.
  rewrite length_app.
  change (length ["{"; c'; "}"]%char) with 3%nat.
  rewrite Nat.add_succ_r.
  rewrite replaceRegex_loop_last by done.
  simpl. by rewrite !string_of_list_app, !string_of_list_ascii_of_string.
Qed.

(** X5. A template with one occurrence of a placeholder and a replacement
    of any length that holds no opening brace, such as a number of more
    than three digits.  When the capacity of the string has room for the
    result the [replace] is done in place, the scan goes on in the same
    block and finds nothing: [replaceRegex] returns the template with the
    replacement in the place of the placeholder, and 1.  When it has not,
    the string moves and the scan goes on in the block that was given back;
    on a platform that leaves the bytes of such a block as they were the
    result is the same. *)
Theorem replaceRegex_longer_replacement (c c' : ascii) (pre post replace : string) :
  In c ["x"; "y"; "z"]%char ->
  tolower c' = c ->
  matchless (placeholder c) pre ->
  matchless (placeholder c) post ->
  lacks "{" replace ->
  (String.length (pre ++ replace ++ post)
   <= capacity (list_ascii_of_string (pre ++ occurrence c' ++ post)))%nat
  \/ (forall k b, freed (list_ascii_of_string (pre ++ replace ++ post)) k b = b) ->
  replaceRegex (placeholder c) (pre ++ occurrence c' ++ post) replace
  = Ret ((pre ++ replace ++ post)%string, 1).
Proof.
  intros Hc Hc' Hpre Hpost Hrep Hroom. unfold replaceRegex.
  rewrite list_ascii_occurrence, fuel_occurrence.
  rewrite replaceRegex_loop_grown; try done.
  - simpl. by rewrite !string_of_list_app, !string_of_list_ascii_of_string.
  - by apply lacks_Forall.
  - rewrite <- list_ascii_occurrence.
    destruct Hroom as [Hcap | Hkeeps].
    + left. by rewrite <- !list_ascii_app, length_list_ascii.
    + right. rewrite <- !list_ascii_app.
      assert (Hsame : forall buf,
                 imap (freed (list_ascii_of_string (pre ++ replace ++ post))) buf
                 = buf).
      { intros buf. rewrite <- (list_fmap_id buf) at 2.
        rewrite <- (imap_const id). apply imap_ext. intros k b _. apply Hkeeps. }
      rewrite Hsame, list_ascii_occurrence.
      rewrite (drop_app_add' _ _ (length (list_ascii_of_string pre)) 3) by done.
      done.
Qed.

End Substitution.

(* ===================================================================== *)
(** ** What a run does to the world, and how it can end *)
(* ===================================================================== *)

Section Runs.

Context {P : Platform}.
Variable cpr_Get : string -> Response.

Local Abbreviation round := (load_tile cpr_Get).
Local Abbreviation row := (loop_x cpr_Get).
Local Abbreviation rows := (loop_y cpr_Get).
Local Abbreviation more := (grows cpr_Get).

Lemma grows_refl l w : more l w w.
Proof.
  split; [exists []; by rewrite app_nil_r |]. split; [done |]. by left.
Qed.

Lemma grows_trans l w1 w2 w3 : more l w1 w2 -> more l w2 w3 -> more l w1 w3.
Proof.
  intros ([t1 Ht1] & Hk1 & Hn1) ([t2 Ht2] & Hk2 & Hn2). split; [| split].
  - exists (t1 ++ t2). by rewrite Ht2, Ht1, app_assoc.
  - intros p n H. by apply Hk2, Hk1.
  - intros p n H. destruct (Hn2 p n H) as [H2 | H2]; [by apply Hn1 | by right].
Qed.

Lemma grows_config l l' w w' : config l' = config l -> more l' w w' -> more l w w'.
Proof.
  unfold config, grows, cachedPathForTile. intros [= _ _ _ Hz _ _ _ _ _ Hp].
  by rewrite Hz, Hp.
Qed.

Lemma load_tile_grows l x y w : more l w (round l x y w).2.
Proof.
  unfold load_tile.
  assert (Hprobe : forall evs, more l w (emit w evs)).
  { intros evs. split; [by exists evs |]. split; [done |]. by left. }
  destruct (fs_exists w _) eqn:Hex; [apply Hprobe |].
  destruct (uriForTile l x y) as [u | | | |]; try apply Hprobe.
  destruct (status_code (cpr_Get u) =? 200); simpl.
  - unfold fs_exists in Hex. apply bool_decide_eq_false in Hex.
    assert (Hnone : fs w !! cachedPathForTile l x y (to_int (zoom_ l)) = None).
    { destruct (fs w !! _); [| done]. destruct Hex. by eexists. }
    unfold fstream_write.
    destruct (stream_opens _ _ _); (split; [| split]); simpl;
      try (eexists; by rewrite <- !app_assoc); try done; try (by left).
    + intros p n H. rewrite lookup_insert_ne; [done |]. intros <-. congruence.
    + intros p n H.
      destruct (decide (cachedPathForTile l x y (to_int (zoom_ l)) = p))
        as [<- | Hne].
      * rewrite lookup_insert_eq in H. injection H as <-.
        right. by exists x, y, u.
      * rewrite lookup_insert_ne in H by done. by left.
  - unfold emit. simpl. split; [| split]; simpl; [| done | by left].
    eexists. by rewrite <- !app_assoc.
Qed.

Lemma loop_x_grows fuel l y x mx w : more l w (row fuel l y x mx w).2.
Proof.
  revert l x w. induction fuel as [| fuel IH]; intros l x w; simpl;
    [apply grows_refl |].
  destruct (x <=? mx); [| apply grows_refl].
  pose proof (load_tile_grows l x y w) as Hstep.
  destruct (round l x y w) as [[l1 | | | |] w1] eqn:Hround; try done.
  apply (grows_trans l w w1); [done |].
  apply (grows_config l l1); [by eapply load_tile_config | apply IH].
Qed.

Lemma loop_y_grows fuel inner l y my mnx mx w :
  more l w (rows fuel inner l y my mnx mx w).2.
Proof.
  revert l y w. induction fuel as [| fuel IH]; intros l y w; simpl;
    [apply grows_refl |].
  destruct (y <=? my); [| apply grows_refl].
  pose proof (loop_x_grows inner l y mnx mx w) as Hrow.
  destruct (row inner l y mnx mx w) as [[l1 | | | |] w1] eqn:Hloop; try done.
  apply (grows_trans l w w1); [done |].
  apply (grows_config l l1); [by eapply loop_x_config | apply IH].
Qed.


(** One round of the loop returns or runs into the scan of [uriForTile]. *)
Lemma load_tile_settled l x y w : settled (round l x y w).1.
Proof.
  unfold load_tile. destruct (fs_exists w _); [left; by eexists |].
  destruct (uriForTile_settled l x y) as [[u ->] | ->]; [| by right].
  destruct (status_code (cpr_Get u) =? 200); left; by eexists.
Qed.

Lemma loop_x_ends fuel l y x mx w :
  returns (row fuel l y x mx w).1 \/ stuck (row fuel l y x mx w).1.
Proof.
  revert l x w. induction fuel as [| fuel IH]; intros l x w; simpl;
    [right; by left |].
  destruct (x <=? mx); [| left; by eexists].
  destruct (load_tile_settled l x y w) as [[l1 H1] | H1];
    destruct (round l x y w) as [r1 w1]; simpl in H1; subst r1;
    [apply IH | right; by right].
Qed.

Lemma loop_y_ends fuel inner l y my mnx mx w :
  returns (rows fuel inner l y my mnx mx w).1
  \/ stuck (rows fuel inner l y my mnx mx w).1.
Proof.
  revert l y w. induction fuel as [| fuel IH]; intros l y w; simpl;
    [right; by left |].
  destruct (y <=? my); [| left; by eexists].
  destruct (loop_x_ends inner l y mnx mx w) as [[l1 H1] | H1];
    destruct (row inner l y mnx mx w) as [r1 w1]; simpl in H1.
  - subst r1. apply IH.
  - right. by destruct H1 as [-> | ->]; [left | right].
Qed.

(** With an upper bound of [INT_MAX] or more the test of the loop holds for
    every [int]: the loop does not return, whatever the fuel. *)
Lemma loop_x_no_return fuel l y x mx w :
  is_int x -> INT_MAX <= mx -> stuck (row fuel l y x mx w).1.
Proof.
  intros Hx Hmx.
  destruct (loop_x_ends fuel l y x mx w) as [[l' Hret] | H]; [| done].
  exfalso. revert l x w Hx Hret.
  induction fuel as [| fuel IH]; intros l x w Hx; simpl; [done |].
  destruct (Z.leb_spec x mx) as [_ | Hgt]; [| unfold is_int in Hx; lia].
  destruct (round l x y w) as [[l1 | | | |] w1]; try done.
  apply IH, to_int_range.
Qed.

Lemma loop_y_no_return fuel inner l y my mnx mx w :
  is_int y -> INT_MAX <= my -> stuck (rows fuel inner l y my mnx mx w).1.
Proof.
  intros Hy Hmy.
  destruct (loop_y_ends fuel inner l y my mnx mx w) as [[l' Hret] | H]; [| done].
  exfalso. revert l y w Hy Hret.
  induction fuel as [| fuel IH]; intros l y w Hy; simpl; [done |].
  destruct (Z.leb_spec y my) as [_ | Hgt]; [| unfold is_int in Hy; lia].
  destruct (row inner l y mnx mx w) as [[l1 | | | |] w1]; try done.
  apply IH, to_int_range.
Qed.

(** The same for the bound of the inner loop, when there is a row to walk. *)
Lemma loop_y_row_no_return fuel inner l y my mnx mx w :
  is_int mnx -> INT_MAX <= mx -> y <= my ->
  stuck (rows fuel inner l y my mnx mx w).1.
Proof.
  intros Hmnx Hmx Hrow. destruct fuel as [| fuel]; [by left |]. cbn [loop_y].
  destruct (Z.leb_spec y my) as [_ | Hgt]; [| lia].
  pose proof (loop_x_no_return inner l y mnx mx w Hmnx Hmx) as Hstuck.
  destruct (row inner l y mnx mx w) as [r1 w1]. simpl in Hstuck.
  by destruct Hstuck as [-> | ->]; [left | right].
Qed.

Lemma min_x_int l : is_int (min_x l) /\ 0 <= min_x l.
Proof.
  unfold min_x, int_sub. pose proof (to_int_range (center_tile_x_ l - blocks_ l)).
  unfold is_int, INT_MIN, INT_MAX in *. lia.
Qed.

Lemma min_y_int l : is_int (min_y l) /\ 0 <= min_y l.
Proof.
  unfold min_y, int_sub. pose proof (to_int_range (center_tile_y_ l - blocks_ l)).
  unfold is_int, INT_MIN, INT_MAX in *. lia.
Qed.

(** X7. [start] never ends with [std::out_of_range]: the one call of its
    loop that can throw it, [str.replace] in [replaceRegex], is never given
    a position beyond the end of the string, whatever the template, the
    index, the server and the world. *)
Theorem start_no_out_of_range (fuel : nat) (l : TileLoader) (w : World)
    (what : string) :
  (start cpr_Get fuel l w).1 <> Throw (out_of_range what).
Proof.
  destruct (loop_y_ends fuel fuel (abort l) (min_y (abort l)) (max_y (abort l))
              (min_x (abort l)) (max_x (abort l)) w) as [[l' H] | [H | H]];
    unfold start; by rewrite H.
Qed.

(** X8. When an upper bound of [start] is [INT_MAX], as for a centre tile
    on the last column or row of zoom 31, the loop test [x <= max_x] holds
    for every [int] and [x++] wraps around: [start] does not return,
    whatever the fuel, the server and the world.  For the bound of the
    inner loop this needs one row to walk. *)
Theorem start_never_returns_at_INT_MAX (l : TileLoader) :
  INT_MAX <= max_y l \/ (INT_MAX <= max_x l /\ min_y l <= max_y l) ->
  forall fuel w, stuck (start cpr_Get fuel l w).1.
Proof.
  intros H fuel w. unfold start.
  change (min_x (abort l)) with (min_x l).
  change (max_x (abort l)) with (max_x l).
  change (min_y (abort l)) with (min_y l).
  change (max_y (abort l)) with (max_y l).
  destruct H as [Hy | [Hx Hrow]].
  - apply loop_y_no_return; [apply min_y_int | done].
  - apply loop_y_row_no_return; [apply min_x_int | done | done].
Qed.

End Runs.

(* ===================================================================== *)
(** ** Runs that return *)
(* ===================================================================== *)

Section Returned.

Context {P : Platform}.
Variable cpr_Get : string -> Response.

Local Abbreviation round := (load_tile cpr_Get).
Local Abbreviation along := (load_all cpr_Get).
Local Abbreviation row := (loop_x cpr_Get).
Local Abbreviation rows := (loop_y cpr_Get).
Local Abbreviation settles := (resolved cpr_Get).
Local Abbreviation store := (written cpr_Get).
Local Abbreviation exchange := (tile_events cpr_Get).

Lemma not_stuck_Ret {A : Type} (a : A) : ~ stuck (Ret a).
Proof. by intros [? | ?]. Qed.

(** A loop that has returned had fuel for all its rounds. *)
Lemma loop_x_ret_fuel fuel l y x mx w l' w' :
  INT_MIN <= x -> mx < INT_MAX ->
  row fuel l y x mx w = (Ret l', w') ->
  (Z.to_nat (mx - x + 1) < fuel)%nat.
Proof.
  revert l x w. induction fuel as [| fuel IH]; intros l x w Hx Hmx; simpl;
    [discriminate |].
  destruct (Z.leb_spec x mx) as [Hle | Hgt]; [| lia].
  destruct (round l x y w) as [[l1 | | | |] w1]; try discriminate.
  assert (Hnext : int_add x 1 = x + 1).
  { apply to_int_small. unfold is_int. lia. }
  rewrite Hnext. intros H. apply IH in H; lia.
Qed.

Lemma loop_y_ret_fuel fuel inner l y my mnx mx w l' w' :
  INT_MIN <= y -> my < INT_MAX -> INT_MIN <= mnx -> mx < INT_MAX ->
  rows fuel inner l y my mnx mx w = (Ret l', w') ->
  (Z.to_nat (my - y + 1) < fuel)%nat
  /\ (y <= my -> (Z.to_nat (mx - mnx + 1) < inner)%nat).
Proof.
  intros Hy Hmy Hmnx Hmx. revert l y w Hy.
  induction fuel as [| fuel IH]; intros l y w Hy; cbn [loop_y];
    [discriminate |].
  destruct (Z.leb_spec y my) as [Hle | Hgt]; [| lia].
  destruct (row inner l y mnx mx w) as [[l1 | | | |] w1] eqn:Hrow;
    try discriminate.
  apply loop_x_ret_fuel in Hrow; [| done | done].
  assert (Hnext : int_add y 1 = y + 1).
  { apply to_int_small. unfold is_int. lia. }
  rewrite Hnext. intros H. apply IH in H as [H _]; lia.
Qed.

(** When [start] has returned once, it is the walk along the grid, from any
    tile list and in any world. *)
Lemma start_ret_load_all fuel l w l' w' :
  start cpr_Get fuel l w = (Ret l', w') ->
  forall ts w2,
    start cpr_Get fuel (set_tiles l ts) w2 = along (abort l) (grid l) w2.
Proof.
  unfold start, grid.
  change (min_x (abort l)) with (min_x l).
  change (max_x (abort l)) with (max_x l).
  change (min_y (abort l)) with (min_y l).
  change (max_y (abort l)) with (max_y l).
  intros Hret ts w2.
  change (abort (set_tiles l ts)) with (abort l).
  change (min_x (abort l)) with (min_x l).
  change (max_x (abort l)) with (max_x l).
  change (min_y (abort l)) with (min_y l).
  change (max_y (abort l)) with (max_y l).
  destruct (min_x_int l) as [Hxi Hx0], (min_y_int l) as [Hyi Hy0].
  assert (Hmy : max_y l < INT_MAX).
  { destruct (Z.lt_ge_cases (max_y l) INT_MAX) as [? | Hge]; [done |].
    pose proof (loop_y_no_return cpr_Get fuel fuel (abort l) (min_y l)
                  (max_y l) (min_x l) (max_x l) w Hyi Hge) as Hstuck.
    rewrite Hret in Hstuck. by apply not_stuck_Ret in Hstuck. }
  destruct (Z.le_gt_cases (min_y l) (max_y l)) as [Hrow | Hnone].
  - assert (Hmx : max_x l < INT_MAX).
    { destruct (Z.lt_ge_cases (max_x l) INT_MAX) as [? | Hge]; [done |].
      pose proof (loop_y_row_no_return cpr_Get fuel fuel (abort l) (min_y l)
                    (max_y l) (min_x l) (max_x l) w Hxi Hge Hrow) as Hstuck.
      rewrite Hret in Hstuck. by apply not_stuck_Ret in Hstuck. }
    apply loop_y_ret_fuel in Hret as [Hf Hi]; try (unfold INT_MIN; lia).
    apply loop_y_load_all; try done; try (unfold INT_MIN; lia); by apply Hi.
  - rewrite (range_nil (min_y l) (max_y l)) by lia.
    destruct fuel as [| fuel]; [discriminate |]. cbn [loop_y].
    destruct (Z.leb_spec (min_y l) (max_y l)) as [? | _]; [lia | done].
Qed.

(** A walk that returns had a URL for every index it did not find cached. *)
Lemma load_all_ret_resolvable l w0 idx ts w l' w' :
  NoDup idx ->
  (forall i, i ∈ idx -> cached l w i = cached l w0 i) ->
  along (set_tiles l ts) idx w = (Ret l', w') ->
  resolvable l w0 idx.
Proof.
  revert ts w. induction idx as [| i idx IH]; intros ts w Hnd Hsame Hret.
  - intros j Hj. by apply elem_of_nil in Hj.
  - apply NoDup_cons in Hnd as [Hi Hnd].
    assert (Hurl : cached l w0 i = false -> returns (uriForTile l i.1 i.2)).
    { intros Hc. rewrite load_all_cons in Hret.
      unfold load_tile in Hret.
      change (fs_exists w (cachedPathForTile (set_tiles l ts) i.1 i.2
                             (to_int (zoom_ (set_tiles l ts)))))
        with (cached l w i) in Hret.
      change (uriForTile (set_tiles l ts) i.1 i.2)
        with (uriForTile l i.1 i.2) in Hret.
      rewrite Hsame, Hc in Hret by apply list_elem_of_here.
      destruct (uriForTile l i.1 i.2) as [u | | | |]; try discriminate.
      by exists u. }
    rewrite load_all_cons in Hret.
    rewrite (load_tile_spec cpr_Get l ts w0 w i) in Hret;
      [| apply Hsame, list_elem_of_here | done].
    apply IH in Hret; [| done |].
    + intros j [-> | Hj]%elem_of_cons; [done | by apply Hret].
    + intros j Hj. rewrite <- (Hsame j) by (by apply list_elem_of_further).
      destruct w. apply cached_written. by intros ->.
Qed.

(** [start] that has returned, told from the world it started in. *)
Lemma start_ret_spec fuel l w l' w' :
  start cpr_Get fuel l w = (Ret l', w') ->
  resolvable l w (grid l)
  /\ l' = set_tiles l (tile_of l <$> filter (fun i => settles l w i) (grid l))
  /\ w' = {| fs := foldl (fun m i => store l w i m) (fs w) (grid l);
             trace := trace w ++ (grid l ≫= exchange l w) |}.
Proof.
  intros Hret.
  pose proof (start_ret_load_all fuel l w l' w' Hret (tiles_ l) w) as Hwalk.
  assert (Hl : set_tiles l (tiles_ l) = l) by (by destruct l).
  rewrite Hl, Hret in Hwalk. symmetry in Hwalk.
  assert (Hurl : resolvable l w (grid l)).
  { by apply (load_all_ret_resolvable l w (grid l) [] w l' w');
      [apply NoDup_grid | |]. }
  split; [done |].
  unfold abort in Hwalk.
  rewrite (load_all_spec cpr_Get l w) in Hwalk; [| apply NoDup_grid | done | done].
  by injection Hwalk as <- <-.
Qed.

(** The path of a tile is not the cache directory itself. *)
Lemma path_of_not_dir l i : path_of l i <> cache_path_ l.
Proof.
  unfold path_of, cachedPathForTile, path_append.
  set (name := cachedNameForTile i.1 i.2 (to_int (zoom_ l))).
  assert (Hname : (0 < length (list_ascii_of_string name))%nat)
    by (unfold name, cachedNameForTile; simpl; lia).
  assert (Hlonger : forall a b : string,
             (0 < length (list_ascii_of_string b))%nat -> (a ++ b)%string <> a).
  { intros a b Hb E. apply (f_equal list_ascii_of_string) in E.
    rewrite list_ascii_app in E. apply (f_equal (@length ascii)) in E.
    rewrite length_app in E. lia. }
  destruct (rev (list_ascii_of_string (cache_path_ l))) as [| c r] eqn:E.
  - intros Hdir. apply (f_equal (@rev ascii)) in E.
    rewrite rev_involutive in E. simpl in E.
    fold name in Hdir. rewrite Hdir, E in Hname. simpl in Hname. lia.
  - case_bool_decide; apply Hlonger; [done |].
    rewrite list_ascii_app, length_app. simpl. lia.
Qed.

(** The walk writes at the paths of its indices only. *)
Lemma foldl_put_other l w (idx : list (Z * Z)) m p :
  (forall i, path_of l i <> p) ->
  foldl (fun m j => store l w j m) m idx !! p = m !! p.
Proof.
  intros Hp. revert m. induction idx as [| j idx IH]; intros m; [done |].
  simpl. rewrite IH. unfold written.
  destruct (cached l w j); [done |].
  destruct (response_of cpr_Get l j) as [r |]; [| done].
  destruct (status_code r =? 200); [| done].
  unfold fstream_write. destruct (stream_opens m _ _); [| done].
  by apply lookup_insert_ne.
Qed.

(** Whether a stream opens is the same all along the walk: the directory
    stays as it is. *)
Lemma stream_opens_walk l w (idx : list (Z * Z)) m path :
  stream_opens (foldl (fun m j => store l w j m) m idx) (cache_path_ l) path
  = stream_opens m (cache_path_ l) path.
Proof.
  unfold stream_opens. rewrite foldl_put_other; [done |].
  intros i. apply path_of_not_dir.
Qed.

(** What was there is there after the walk. *)
Lemma foldl_put_keeps l w (idx : list (Z * Z)) m p :
  is_Some (m !! p) -> is_Some (foldl (fun m j => store l w j m) m idx !! p).
Proof.
  revert m. induction idx as [| j idx IH]; intros m Hm; [done |].
  simpl. apply IH. unfold written.
  destruct (cached l w j); [done |].
  destruct (response_of cpr_Get l j) as [r |]; [| done].
  destruct (status_code r =? 200); [| done].
  unfold fstream_write. destruct (stream_opens _ _ _); [| done].
  destruct (decide (path_of l j = p)) as [-> | Hne].
  - rewrite lookup_insert_eq. by eexists.
  - by rewrite lookup_insert_ne.
Qed.

(** What the walk has written for an index that was fetched, when the
    stream opened. *)
Lemma foldl_put_fetched l w (idx : list (Z * Z)) m i :
  i ∈ idx -> cached l w i = false -> fetched cpr_Get l i = true ->
  stream_opens m (cache_path_ l) (path_of l i) = true ->
  is_Some (foldl (fun m j => store l w j m) m idx !! path_of l i).
Proof.
  intros Hin Hc Hf Hopen. revert m Hopen Hin.
  induction idx as [| j idx IH]; intros m Hopen Hin;
    [by apply elem_of_nil in Hin |].
  simpl. apply elem_of_cons in Hin as [<- | Hin].
  - apply foldl_put_keeps. unfold written. rewrite Hc.
    unfold fetched in Hf.
    destruct (response_of cpr_Get l i) as [r |]; [| done].
    rewrite Hf. unfold fstream_write.
    rewrite Hopen, lookup_insert_eq. by eexists.
  - apply IH; [| done]. rewrite <- Hopen.
    apply (stream_opens_walk l w [j] m).
Qed.

(** Where the stream has not opened nothing is written. *)
Lemma foldl_put_closed l w (idx : list (Z * Z)) m i :
  stream_opens m (cache_path_ l) (path_of l i) = false ->
  foldl (fun m j => store l w j m) m idx !! path_of l i = m !! path_of l i.
Proof.
  intros Hclosed. induction idx as [| j idx IH] using rev_ind; [done |].
  rewrite foldl_app. simpl. rewrite <- IH. unfold written at 1.
  destruct (cached l w j); [done |].
  destruct (response_of cpr_Get l j) as [r |]; [| done].
  destruct (status_code r =? 200); [| done].
  unfold fstream_write.
  destruct (stream_opens _ _ (path_of l j)) eqn:Hj; [| done].
  apply lookup_insert_ne. intros E. rewrite E, stream_opens_walk in Hj.
  congruence.
Qed.

(** After the walk an index of the grid has a file exactly when it had one
    before, or was fetched and the stream for it opened. *)
Lemma cached_after l w (idx : list (Z * Z)) t i :
  i ∈ idx ->
  cached l {| fs := foldl (fun m j => store l w j m) (fs w) idx; trace := t |} i
  = cached l w i || (fetched cpr_Get l i && opened l w i).
Proof.
  intros Hin. unfold cached at 1, fs_exists, opened. simpl.
  destruct (cached l w i) eqn:Hc; simpl.
  - apply bool_decide_eq_true. apply foldl_put_keeps.
    unfold cached, fs_exists in Hc. by apply bool_decide_eq_true in Hc.
  - destruct (fetched cpr_Get l i) eqn:Hf; simpl.
    + destruct (stream_opens _ _ _) eqn:Hopen.
      * apply bool_decide_eq_true. by apply foldl_put_fetched.
      * rewrite foldl_put_closed by done. exact Hc.
    + rewrite foldl_put_unresolved by (by right).
      exact Hc.
Qed.

(** X9. A [start] that returns, with whatever fuel, has done what the walk
    along the grid does: every index of the grid that was not cached had a
    URL, [tiles_] holds the tiles of the indices found cached or fetched
    with status 200, in row-major order, every other field of the loader is
    as it was, and the trace has grown by the exchanges of the indices in
    turn. *)
Theorem start_returns_as_specified (fuel : nat) (l l' : TileLoader) (w w' : World) :
  start cpr_Get fuel l w = (Ret l', w') ->
  resolvable l w (grid l)
  /\ l' = set_tiles l (tile_of l <$> filter (fun i => resolved cpr_Get l w i)
                                     (grid l))
  /\ trace w' = trace w ++ (grid l ≫= tile_events cpr_Get l w)
  /\ probes (trace w') = probes (trace w) ++ (path_of l <$> grid l).
Proof.
  intros (Hurl & -> & ->)%start_ret_spec. repeat split; try done.
  simpl. unfold probes. rewrite omap_app. f_equal. apply probes_events.
Qed.

(** X10. After a [start] that returns, every tile in [tiles_] lies on the
    grid of the zoom level (both indices from 0 to [maxTiles()]) within the
    bounds of the run, carries the zoom and the cache path of its indices,
    and is listed once.  Its image is in the file system exactly when it
    was there before the run or the stream it was written through opened:
    the code pushes the tile without looking at the stream, so that a tile
    may be listed with no file behind its path. *)
Theorem start_tiles_and_files (fuel : nat) (l l' : TileLoader) (w w' : World) :
  start cpr_Get fuel l w = (Ret l', w') ->
  NoDup (tiles_ l')
  /\ forall t, t ∈ tiles_ l' ->
       (x_ t, y_ t) ∈ grid l
       /\ 0 <= x_ t <= maxTiles l /\ 0 <= y_ t <= maxTiles l
       /\ z_ t = to_int (zoom_ l)
       /\ path_ t = cachedPathForTile l (x_ t) (y_ t) (z_ t)
       /\ fs_exists w' (path_ t)
          = cached l w (x_ t, y_ t) || opened l w (x_ t, y_ t).
Proof.
  intros (Hurl & -> & ->)%start_ret_spec. simpl. split.
  - apply NoDup_fmap_2; [intros i j; apply tile_of_inj |].
    apply NoDup_filter, NoDup_grid.
  - intros t ([x y] & -> & Hin)%list_elem_of_fmap.
    apply list_elem_of_filter in Hin as [Hok Hin]. simpl.
    split; [done |].
    assert (Hfile : fs_exists
                      {| fs := foldl (fun m i => store l w i m) (fs w) (grid l);
                         trace := trace w ++ (grid l ≫= exchange l w) |}
                      (path_of l (x, y))
                    = cached l w (x, y) || opened l w (x, y)).
    { rewrite (cached_after l w (grid l) _ (x, y) Hin : fs_exists _ _ = _).
      apply Is_true_true in Hok. unfold resolved in Hok.
      destruct (cached l w (x, y)); [done |]. simpl in *. by rewrite Hok. }
    apply elem_of_row_major in Hin as [Hx Hy].
    apply elem_of_range in Hx, Hy.
    destruct (min_x_int l) as [_ ?], (min_y_int l) as [_ ?].
    unfold max_x, max_y in *. repeat split; try done; lia.
Qed.

Lemma filter_ext_elem {A : Type} (f g : A -> bool) (xs : list A) :
  (forall x, x ∈ xs -> f x = g x) ->
  filter (fun x => f x) xs = filter (fun x => g x) xs.
Proof.
  induction xs as [| a xs IH]; intros H; [done |].
  rewrite !filter_cons, (H a) by apply list_elem_of_here.
  rewrite IH; [done |]. intros x Hx. by apply H, list_elem_of_further.
Qed.

Lemma bind_ext_elem {A B : Type} (f g : A -> list B) (xs : list A) :
  (forall x, x ∈ xs -> f x = g x) -> xs ≫= f = xs ≫= g.
Proof.
  induction xs as [| a xs IH]; intros H; [done |].
  rewrite !bind_cons, (H a) by apply list_elem_of_here.
  rewrite IH; [done |]. intros x Hx. by apply H, list_elem_of_further.
Qed.

Lemma foldl_id_elem {A B : Type} (f : B -> A -> B) (xs : list A) (b : B) :
  (forall x, x ∈ xs -> f b x = b) -> foldl f b xs = b.
Proof.
  induction xs as [| a xs IH]; intros H; [done |].
  simpl. rewrite (H a) by apply list_elem_of_here.
  apply IH. intros x Hx. by apply H, list_elem_of_further.
Qed.

(** X11. After a [start] that returns, a second [start] with the same
    server on the same platform returns the same loader, tile list
    included, and leaves the file system as it is.  An index that has a
    file after the first run costs its probe alone; every other index goes
    through the exchange of the first run again: the request, and the
    report of the failure or the write through a stream that does not
    open. *)
Theorem start_again (fuel : nat) (l l' : TileLoader) (w w' : World) :
  start cpr_Get fuel l w = (Ret l', w') ->
  start cpr_Get fuel l' w'
  = (Ret l',
     {| fs := fs w';
        trace := trace w'
                 ++ (grid l ≫= fun i =>
                       if cached l w' i then [ev_exists (path_of l i)]
                       else tile_events cpr_Get l w i) |}).
Proof.
  intros Hret. pose proof (start_ret_spec _ _ _ _ _ Hret) as (Hurl & -> & ->).
  rewrite (start_ret_load_all fuel l w _ _ Hret).
  set (w' := {| fs := foldl (fun m i => store l w i m) (fs w) (grid l);
                trace := trace w ++ (grid l ≫= exchange l w) |}).
  assert (Hc : forall i, i ∈ grid l ->
                 cached l w' i
                 = cached l w i || (fetched cpr_Get l i && opened l w i)).
  { intros i Hi. by apply cached_after. }
  unfold abort.
  rewrite (load_all_spec cpr_Get l w');
    [| apply NoDup_grid | done | apply resolvable_all].
  assert (E1 : filter (fun i => settles l w' i) (grid l)
               = filter (fun i => settles l w i) (grid l)).
  { apply filter_ext_elem. intros i Hi. unfold resolved.
    rewrite (Hc i Hi).
    by destruct (cached l w i), (fetched cpr_Get l i), (opened l w i). }
  assert (E2 : foldl (fun m i => store l w' i m) (fs w') (grid l) = fs w').
  { apply foldl_id_elem. intros i Hi. unfold written.
    destruct (cached l w' i) eqn:Hc'; [done |].
    rewrite (Hc i Hi) in Hc'. apply orb_false_elim in Hc' as [_ Hno].
    unfold fetched in Hno.
    destruct (response_of cpr_Get l i) as [r |]; [| done].
    destruct (status_code r =? 200); [| done].
    unfold fstream_write. simpl in Hno. unfold opened in Hno.
    unfold w' at 1. simpl fs. by rewrite stream_opens_walk, Hno. }
  assert (E3 : grid l ≫= exchange l w'
               = grid l ≫= fun i =>
                   if cached l w' i then [ev_exists (path_of l i)]
                   else exchange l w i).
  { apply bind_ext_elem. intros i Hi. unfold tile_events at 1.
    destruct (cached l w' i) eqn:Hc'; [done |].
    rewrite (Hc i Hi) in Hc'. apply orb_false_elim in Hc' as [Hno _].
    unfold tile_events. by rewrite Hno. }
  by rewrite E1, E2, E3, app_nil_l.
Qed.

End Returned.

(* ===================================================================== *)
(** ** What the constructor establishes *)
(* ===================================================================== *)

Lemma to_int_negative z : to_int z < 0 <-> 2 ^ 31 <= z mod 2 ^ 32.
Proof. unfold to_int. Z.div_mod_to_equations. lia. Qed.

Lemma to_int_unsigned z : 0 <= to_int z -> to_int z = z mod 2 ^ 32.
Proof. unfold to_int. Z.div_mod_to_equations. lia. Qed.

Lemma Double_to_int_range x : is_int (Double.to_int x).
Proof.
  unfold Double.to_int, is_int.
  destruct (Double.truncZ x) as [z |]; [| unfold INT_MIN, INT_MAX; lia].
  destruct (Z.leb_spec INT_MIN z), (Z.leb_spec z INT_MAX); simpl;
    unfold INT_MIN, INT_MAX in *; lia.
Qed.

Lemma to_string_not_empty z : to_string z <> ""%string.
Proof. unfold to_string. by destruct (Z.to_int z) as [[] | []]. Qed.

Lemma list_ascii_nil s : list_ascii_of_string s = [] -> s = ""%string.
Proof. by destruct s. Qed.

(** A path that ends in a name with no separator gets one put in. *)
Lemma path_append_name pre s q :
  s <> ""%string -> lacks "/" s ->
  path_append (pre ++ s) q = ((pre ++ s) ++ "/" ++ q)%string.
Proof.
  intros Hs Hl. unfold path_append. rewrite list_ascii_app, rev_app_distr.
  destruct (rev (list_ascii_of_string s)) as [| c r] eqn:E.
  - apply (f_equal (@rev ascii)) in E. rewrite rev_involutive in E.
    by apply list_ascii_nil in E.
  - simpl. rewrite bool_decide_eq_false_2; [done |].
    apply lacks_Forall in Hl. rewrite Forall_forall in Hl.
    apply Hl, list_elem_of_In, in_rev. rewrite E. by left.
Qed.

Section Construction.

Variables tan cos log : float -> float.
Variable to_string_double : float -> string.
Variable hash_fn : string -> Z.

Local Abbreviation latLon := (latLonToTileCoords tan cos log to_string_double).
Local Abbreviation new := (TileLoader_new tan cos log to_string_double hash_fn).

(** X12. The assertion of the constructor fails exactly when the block
    radius, an [unsigned int], is [2^31] or more, so that it is negative
    as the [int] it is stored in; the process then ends before anything is
    done to the disk. *)
Theorem constructor_assertion (service : string) (lat lon : float)
    (zoom blocks : Z) (w : World) :
  (2 ^ 31 <= blocks mod 2 ^ 32 ->
   new service lat lon zoom blocks w = (Abort, w))
  /\ ((new service lat lon zoom blocks w).1 = Abort ->
      2 ^ 31 <= blocks mod 2 ^ 32).
Proof.
  unfold TileLoader_new. split.
  - intros H%to_int_negative. by destruct (Z.ltb_spec (to_int blocks) 0); [| lia].
  - destruct (Z.ltb_spec (to_int blocks) 0) as [H | H];
      [intros _; by apply to_int_negative |].
    destruct (create_directories _ w) as [[[] | | | |] w1]; try done.
    unfold latLonToTileCoords.
    destruct (31 <? zoom); [done |].
    destruct (_ || _); [done |]. by destruct (_ || _).
Qed.

(** X13. A loader that the constructor returns: the block radius is the
    one passed and not negative, the zoom is at most 31 and the coordinates
    were accepted, the centre tile is an [int], no tile is listed, the cache
    directory is [./gzsatellite/mapscache/<hash>] and is a directory on
    disk, every entry that was there is kept and no file is created, one
    [create_directories] is the whole trace of it, and the cache path of a
    tile is that directory, a separator and the name of the tile. *)
Theorem constructor_establishes (service : string) (lat lon : float)
    (zoom blocks : Z) (w : World) (l : TileLoader) (w' : World) :
  new service lat lon zoom blocks w = (Ret l, w') ->
  (0 <= blocks_ l <= INT_MAX /\ blocks_ l = blocks mod 2 ^ 32)
  /\ (zoom_ l <= 31 /\ ~ refused lat lon zoom)
  /\ (is_int (center_tile_x_ l) /\ is_int (center_tile_y_ l))
  /\ tiles_ l = []
  /\ cache_path_ l
     = ("./gzsatellite/mapscache/" ++ to_string (hash_fn service))%string
  /\ fs w' !! cache_path_ l = Some Dir
  /\ trace w' = trace w ++ [ev_create_directories (cache_path_ l)]
  /\ (forall q n, fs w !! q = Some n -> fs w' !! q = Some n)
  /\ (forall q data, fs w' !! q = Some (File data) ->
                     fs w !! q = Some (File data))
  /\ forall x y z,
       cachedPathForTile l x y z
       = (cache_path_ l ++ "/" ++ cachedNameForTile x y z)%string.
Proof.
  intros Hnew.
  destruct (TileLoader_new_fields _ _ _ _ _ _ _ _ _ _ _ _ _ Hnew)
    as (x & y & Hxy & Hcx & Hcy & _ & _ & [= _ _ _ Hz Hb] & Ht).
  assert (Hvalid : ~ refused lat lon zoom).
  { destruct (latLon_cases tan cos log to_string_double lat lon zoom)
      as [[_ [what Hf]] | [Hn _]]; [congruence | done]. }
  unfold TileLoader_new in Hnew.
  destruct (Z.ltb_spec (to_int blocks) 0) as [| Hpos]; [discriminate |].
  destruct (create_directories _ w) as [[[] | | | |] w1] eqn:Hdir;
    try discriminate.
  rewrite Hxy in Hnew. injection Hnew as <- <-. simpl.
  apply create_directories_ok in Hdir as (Hd & Htr & Hkeep & Hfiles);
    [| discriminate].
  pose proof (to_int_range blocks) as Hr. unfold is_int in Hr.
  split; [split; [lia | by apply to_int_unsigned] |].
  split; [split; [unfold refused in Hvalid; lia | done] |].
  split; [split; apply Double_to_int_range |].
  repeat split; try done.
  intros x' y' z'. unfold cachedPathForTile. simpl.
  apply (path_append_name "./gzsatellite/mapscache/");
    [apply to_string_not_empty |].
  apply lacks_to_string. intros d Hd'. simpl in Hd'.
  repeat (destruct Hd' as [<- | Hd']; [discriminate |]). done.
Qed.

End Construction.

(* ===================================================================== *)
(** ** Columns of the grid and metres per pixel *)
(* ===================================================================== *)

Section Columns.

Variables tan cos log : float -> float.
Variable to_string_double : float -> string.

Local Abbreviation latLon := (latLonToTileCoords tan cos log to_string_double).

(** X14. The column of a point does not depend on its latitude, nor the
    row on its longitude: calls of [latLonToTileCoords] at one zoom that
    return agree on [x] when the longitude is the same and on [y] when the
    latitude is. *)
Theorem latLonToTileCoords_axes (lat lat' lon lon' : float) (zoom : Z)
    (x y x' y' x'' y'' : float) :
  latLonToTileCoords tan cos log to_string_double lat lon zoom = Ret (x, y) ->
  latLonToTileCoords tan cos log to_string_double lat' lon zoom
  = Ret (x', y') ->
  latLonToTileCoords tan cos log to_string_double lat lon' zoom
  = Ret (x'', y'') ->
  x' = x /\ y'' = y.
Proof.
  unfold latLonToTileCoords.
  destruct (31 <? zoom); [discriminate |].
  do 4 (destruct (_ || _); [discriminate |]).
  by intros [= <- <-] [= <- _] [= _ <-].
Qed.

(** X15. At every zoom from 0 to 31 and every accepted latitude, the
    meridian of -180 degrees is the left edge of column 0 ([x] is 0) and the
    meridian of 0 degrees is the middle of the grid ([x] is half the grid
    width, so that its column is [2^zoom / 2]). *)
Theorem latLonToTileCoords_meridians (lat : float) (zoom : Z) :
  0 <= zoom <= 31 ->
  ~ beyond (-85.0511)%float 85.0511%float lat ->
  (exists y, latLon lat (-180) zoom = Ret (0%float, y))
  /\ (exists x y, latLon lat 0 zoom = Ret (x, y)
                  /\ x = (Double.of_Z (2 ^ zoom)%Z / 2)%float
                  /\ Double.floorZ x = Some (2 ^ zoom / 2)).
Proof.
  intros Hz Hlat. unfold beyond in Hlat.
  assert (H1 : (lat <? -85.0511)%float = false)
    by (destruct (lat <? -85.0511)%float; [destruct Hlat; by left | done]).
  assert (H2 : (85.0511 <? lat)%float = false)
    by (destruct (85.0511 <? lat)%float; [destruct Hlat; by right | done]).
  unfold latLonToTileCoords.
  change (- 85.0511)%float with (-85.0511)%float.
  rewrite H1, H2. apply zoom_cases in Hz.
  repeat (apply elem_of_cons in Hz as [-> | Hz]);
    try (by apply elem_of_nil in Hz);
    (split; [eexists; reflexivity |]);
    eexists _, _; (split; [reflexivity | split; vm_compute; reflexivity]).
Qed.

(** X16. At the equator, with [cos 0 = 1]: the resolution is
    [156543.034 / 2^zoom] metres per pixel for a zoom from 0 to 30, each
    zoom level halving that of the level before; at zoom 31 the shift
    [1 << zoom] is [INT_MIN] and the resolution is negative. *)
Theorem resolution_at_equator (l : TileLoader) :
  cos 0 = 1%float ->
  latitude_ l = 0%float ->
  0 <= zoom_ l <= 31 ->
  resolution cos l
  = (156543.034
     / Double.of_Z (if (zoom_ l =? 31)%Z then INT_MIN
                    else (2 ^ zoom_ l)%Z))%float
  /\ (zoom_ l < 30 ->
      zoomToResolution cos 0 (zoom_ l + 1)
      = (zoomToResolution cos 0 (zoom_ l) / 2)%float)
  /\ (zoom_ l = 31 -> (resolution cos l <? 0)%float = true).
Proof.
  intros Hcos Hlat Hz. unfold resolution, zoomToResolution. rewrite Hlat.
  change (0 * Double.M_PI / Double.of_Z 180)%float with 0%float.
  rewrite Hcos. apply zoom_cases in Hz.
  repeat (apply elem_of_cons in Hz as [-> | Hz]);
    try (by apply elem_of_nil in Hz);
    (split; [vm_compute; reflexivity |]);
    (split; [intros ?; try lia; vm_compute; reflexivity |]);
    intros ?; try lia; vm_compute; reflexivity.
Qed.

End Columns.

(* ===================================================================== *)
(** ** Templates with each placeholder at most once *)
(* ===================================================================== *)

Lemma matchless_nil ex : matchless ex "".
Proof. done. Qed.

(** A text with no opening brace before a string with no match. *)
Lemma matchless_text c a b :
  lacks "{" a -> matchless (placeholder c) b -> matchless (placeholder c) (a ++ b).
Proof.
  unfold matchless. intros Ha Hb. induction a as [| a0 a IH]; [done |].
  destruct Ha as [Ha0 Ha].
  change (regex_search (placeholder c)
            (a0 :: list_ascii_of_string (a ++ b)) = None).
  rewrite regex_search_cons, (IH Ha).
  change (literal (placeholder c)) with ["{"; c; "}"]%char.
  cbn [matches_here]. unfold char_matches at 1. simpl icase. cbv iota.
  rewrite bool_decide_eq_false_2; [done |].
  change (tolower "{") with "{"%char. intros H. symmetry in H.
  by apply tolower_brace in H.
Qed.

(** A placeholder of another letter before a string with no match. *)
Lemma matchless_hole c d b :
  In c ["x"; "y"; "z"]%char -> tolower d <> c ->
  matchless (placeholder c) b -> matchless (placeholder c) (occurrence d ++ b).
Proof.
  unfold matchless. intros Hc Hd Hb.
  destruct (placeholder_chars c Hc) as (_ & _ & _ & _ & _ & _ & _ & Hlow).
  assert (H1 : char_matches (placeholder c) c d = false).
  { unfold char_matches. simpl. rewrite Hlow.
    apply bool_decide_eq_false_2. congruence. }
  assert (H2 : char_matches (placeholder c) c "}" = false).
  { apply placeholder_letter in Hc as [-> | [-> | ->]]; reflexivity. }
  assert (H3 : char_matches (placeholder c) "{" "}" = false) by reflexivity.
  change (regex_search (placeholder c)
            ("{" :: d :: "}" :: list_ascii_of_string b)%char = None).
  rewrite !regex_search_cons, Hb.
  change (literal (placeholder c)) with ["{"; c; "}"]%char.
  cbn [matches_here]. by rewrite H1, H2, H3, !andb_false_r.
Qed.

Lemma matchless_render c ps :
  In c ["x"; "y"; "z"]%char -> braceless ps -> holes c ps = 0%nat ->
  matchless (placeholder c) (render ps).
Proof.
  intros Hc Hps. induction Hps as [| [s | d] ps Hp _ IH]; simpl;
    [intros _; apply matchless_nil | |].
  - intros H. by apply matchless_text; [| apply IH].
  - case_bool_decide as Hd; [discriminate |].
    intros H. by apply matchless_hole; [| | apply IH].
Qed.

Lemma fill_none c r ps : holes c ps = 0%nat -> fill c r <$> ps = ps.
Proof.
  induction ps as [| [s | d] ps IH]; cbn [holes]; [done | |].
  - intros H. by rewrite fmap_cons, IH.
  - case_bool_decide as Hd; [discriminate |].
    intros H. rewrite fmap_cons, IH by done. cbn [fill].
    by rewrite bool_decide_eq_false_2.
Qed.

Lemma holes_split c ps :
  holes c ps = 1%nat ->
  exists ps1 d ps2,
    ps = ps1 ++ Hole d :: ps2 /\ tolower d = c
    /\ holes c ps1 = 0%nat /\ holes c ps2 = 0%nat.
Proof.
  induction ps as [| [s | d] ps IH]; cbn [holes]; [discriminate | |].
  - intros (ps1 & d & ps2 & -> & Hd & H1 & H2)%IH.
    by exists (Text s :: ps1), d, ps2.
  - case_bool_decide as Hd.
    + intros [= H]. by exists [], d, ps.
    + intros (ps1 & d' & ps2 & -> & Hd' & H1 & H2)%IH.
      exists (Hole d :: ps1), d', ps2. repeat split; try done.
      cbn [holes]. by rewrite bool_decide_eq_false_2.
Qed.

Lemma render_app ps1 ps2 : render (ps1 ++ ps2) = (render ps1 ++ render ps2)%string.
Proof.
  induction ps1 as [| [s | d] ps1 IH]; [done | |].
  - change (s ++ render (ps1 ++ ps2) = (s ++ render ps1) ++ render ps2)%string.
    by rewrite IH, string_app_assoc.
  - change (occurrence d ++ render (ps1 ++ ps2)
            = (occurrence d ++ render ps1) ++ render ps2)%string.
    by rewrite IH, string_app_assoc.
Qed.

Lemma braceless_app ps1 ps2 :
  braceless (ps1 ++ ps2) <-> braceless ps1 /\ braceless ps2.
Proof. apply Forall_app. Qed.

Section Pieces.

Context {P : Platform}.

(** One round of [uriForTile] on a template that has the placeholder at most
    once and no other opening brace in its texts. *)
Lemma replaceRegex_pieces c r ps :
  In c ["x"; "y"; "z"]%char -> braceless ps -> (holes c ps <= 1)%nat ->
  (String.length r <= 3)%nat ->
  replaceRegex (placeholder c) (render ps) r
  = Ret (render (fill c r <$> ps), Z.of_nat (holes c ps)).
Proof.
  intros Hc Hps Hn Hr.
  destruct (holes c ps) as [| [| n]] eqn:Hh; [| | lia].
  - rewrite replaceRegex_matchless by (by apply matchless_render).
    by rewrite fill_none.
  - apply holes_split in Hh as (ps1 & d & ps2 & -> & Hd & H1 & H2).
    apply braceless_app in Hps as [Hps1 Hps2].
    apply Forall_cons in Hps2 as [_ Hps2].
    rewrite render_app, fmap_app, fmap_cons, render_app, !fill_none by done.
    simpl fill. rewrite bool_decide_eq_true_2 by done.
    change (render (Hole d :: ps2)) with (occurrence d ++ render ps2)%string.
    change (render (Text r :: ps2)) with (r ++ render ps2)%string.
    by apply replaceRegex_one; try apply matchless_render.
Qed.

Lemma braceless_fill c r ps :
  lacks "{" r -> braceless ps -> braceless (fill c r <$> ps).
Proof.
  intros Hr Hps. induction Hps as [| [s | d] ps Hp _ IH]; [constructor | |];
    rewrite fmap_cons; constructor; try done.
  cbn [fill]. by case_bool_decide.
Qed.

Lemma holes_fill c c' r ps :
  c <> c' -> holes c' (fill c r <$> ps) = holes c' ps.
Proof.
  intros Hne. induction ps as [| [s | d] ps IH]; [done | |];
    rewrite fmap_cons; cbn [fill holes]; [done |].
  case_bool_decide as Hd; cbn [holes]; rewrite IH; [| done].
  rewrite bool_decide_eq_false_2; [done | congruence].
Qed.

Lemma lacks_brace_to_string z : lacks "{" (to_string z).
Proof.
  apply lacks_to_string. intros d Hd. simpl in Hd.
  repeat (destruct Hd as [<- | Hd]; [discriminate |]). done.
Qed.

(** X17. A template made of texts without an opening brace and of
    placeholders in braces, with each of [{x}], [{y}] and [{z}] at most once
    (in either case, in any order, other placeholders left alone): for
    indices and a zoom of at most three digits [uriForTile] returns the
    template with the three placeholders filled in. *)
Theorem uriForTile_fills_template (l : TileLoader) (x y : Z) (ps : list piece) :
  object_uri_ l = render ps ->
  braceless ps ->
  (holes "x" ps <= 1)%nat -> (holes "y" ps <= 1)%nat -> (holes "z" ps <= 1)%nat ->
  0 <= x <= 999 -> 0 <= y <= 999 -> 0 <= zoom_ l <= 999 ->
  uriForTile l x y
  = Ret (render (fill "z" (to_string (zoom_ l))
                   <$> (fill "y" (to_string y)
                          <$> (fill "x" (to_string x) <$> ps)))).
Proof.
  intros Huri Hps Hx Hy Hz Hxr Hyr Hzr. unfold uriForTile. rewrite Huri.
  rewrite (replaceRegex_pieces "x") ;
    [| simpl; tauto | done | done | by apply to_string_short].
  simpl.
  rewrite (replaceRegex_pieces "y");
    [| simpl; tauto | by apply braceless_fill, Hps; apply lacks_brace_to_string
     | by rewrite holes_fill | by apply to_string_short].
  simpl.
  rewrite (replaceRegex_pieces "z");
    [| simpl; tauto
     | by do 2 (apply braceless_fill; [apply lacks_brace_to_string |])
     | by rewrite !holes_fill | by apply to_string_short].
  done.
Qed.

End Pieces.

(* ===================================================================== *)
(** ** A longitude that is no number *)
(* ===================================================================== *)

Section NotANumber.

Variables tan cos log : float -> float.
Variable to_string_double : float -> string.

(** X18. A NaN longitude passes the checks of [latLonToTileCoords], which
    are comparisons, and makes [x] a NaN: at every zoom from 0 to 31 and
    every accepted latitude [insideCentreTile] returns [false], whatever the
    centre tile of the loader. *)
Theorem insideCentreTile_nan (l : TileLoader) (lat : float) :
  0 <= zoom_ l <= 31 ->
  ~ beyond (-85.0511)%float 85.0511%float lat ->
  insideCentreTile tan cos log to_string_double l lat nan = Ret false.
Proof. apply insideCentreTile_nan_false. Qed.

End NotANumber.

(* ===================================================================== *)
(** ** The statements at concrete inputs *)
(* ===================================================================== *)

Section Examples.

#[local] Existing Instance libstdcxx.

(** Zoom 1, centre tile (1, 1), block radius [2147483647]: [cx + R] wraps
    around to [INT_MIN], both upper bounds are [INT_MIN], and [start]
    returns without probing any index, while the grid of the specification
    is all four tiles of zoom 1. *)
Example start_wraps :
  start not_found 10 wide_loader empty_world = (Ret wide_loader, empty_world)
  /\ max_x wide_loader = INT_MIN
  /\ spec_grid wide_loader = [(0, 0); (1, 0); (0, 1); (1, 1)].
Proof. repeat split; vm_compute; reflexivity. Qed.

Lemma start_bounds_overflow_witness :
  (exists l' w',
      start one_tile 10 grid_loader warm_world = (Ret l', w')
      /\ probes (trace w')
         = probes (trace warm_world)
           ++ (path_of grid_loader <$> spec_grid grid_loader))
  /\ (center_tile_x_ wide_loader, center_tile_y_ wide_loader)
       ∈ spec_grid wide_loader
  /\ grid wide_loader = []
  /\ (forall l' w',
        start not_found 10 wide_loader empty_world = (Ret l', w') ->
        w' = empty_world /\ tiles_ l' = [])
  /\ (INT_MAX < center_tile_y_ wide_loader + blocks_ wide_loader ->
      forall n,
        start not_found (S n) wide_loader empty_world
        = (Ret (abort wide_loader), empty_world)).
Proof.
  split.
  - apply (proj1 (start_bounds_overflow one_tile 10 grid_loader warm_world)).
    + simpl. lia.
    + unfold no_wrap, is_int, INT_MIN, INT_MAX. simpl. lia.
    + simpl. lia.
    + vm_compute. lia.
  - apply (proj2 (proj2 (proj2 (proj2
             (start_bounds_overflow not_found 10 wide_loader empty_world))))).
    + simpl. lia.
    + simpl. lia.
    + simpl. lia.
    + unfold INT_MAX. simpl. lia.
    + unfold INT_MAX. simpl. lia.
Defined.

(** A run on a 3 by 3 grid at zoom 2 around (1, 1): the tile (0, 0) is in
    the cache, the server has the tile (1, 1) and answers 404 for the rest. *)
Example start_run :
  tiles_of_run (start one_tile 10 grid_loader warm_world)
  = Some [mkMapTile 0 0 2 "./gzsatellite/mapscache/7/x0_y0_z2.jpg";
          mkMapTile 1 1 2 "./gzsatellite/mapscache/7/x1_y1_z2.jpg"].
Proof. vm_compute. reflexivity. Qed.


Lemma cache_hit_witness :
  exists l' w',
    start one_tile 10 grid_loader warm_world = (Ret l', w')
    /\ trace w'
       = trace warm_world
         ++ (grid grid_loader ≫= tile_events one_tile grid_loader warm_world)
    /\ forall i,
         i ∈ grid grid_loader -> cached grid_loader warm_world i = true ->
         tile_events one_tile grid_loader warm_world i
         = [ev_exists (path_of grid_loader i)]
         /\ requests (tile_events one_tile grid_loader warm_world i) = []
         /\ tile_of grid_loader i ∈ tiles_ l'
         /\ path_ (tile_of grid_loader i) = path_of grid_loader i
         /\ fs w' !! path_of grid_loader i
            = fs warm_world !! path_of grid_loader i.
Proof.
  apply (proj2 (cache_hit_needs_no_request one_tile 10 grid_loader warm_world)).
  - split; vm_compute; reflexivity.
  - vm_compute. lia.
Defined.

(** A latitude that is no number, at longitude 0 and zoom 2: the
    specification rejects it and the call returns. *)
Lemma latLonToTileCoords_accepts_nan_witness :
  invalid_input nan 0 2
  /\ returns (latLonToTileCoords no_libm no_libm no_libm no_format nan 0 2).
Proof.
  apply (proj1 (proj2 (proj2 (proj2 (proj2
           (latLonToTileCoords_accepts_nan no_libm no_libm no_libm no_format
              0 0 2)))))).
  - lia.
  - split; reflexivity.
Defined.

Lemma east_edge_witness :
  (exists x y, latLonToTileCoords no_libm no_libm no_libm no_format 0 180 0
               = Ret (x, y) /\ Double.floorZ x = Some (2 ^ 0))
  /\ (exists x y, latLonToTileCoords no_libm no_libm no_libm no_format
                    0 0x1.67fffffffffffp+7 0
                  = Ret (x, y) /\ Double.floorZ x = Some (2 ^ 0))
  /\ ~ 2 ^ 0 <= 2 ^ 0 - 1.
Proof. apply east_edge_is_off_grid. lia. Defined.

Lemma max_tile_index_witness :
  maxTiles (loader "" 31 0 0 0) = 2 ^ 31 - 1 /\ grid_width 31 = 2 ^ 31.
Proof.
  apply (max_tile_index_and_grid_width (loader "" 31 0 0 0)). simpl. lia.
Defined.

(** C8 as stated fails. Zoom 32 makes the constructor throw, and the cache
    directory, which was not there, is there afterwards. *)
Lemma constructor_failure_counterexample :
  exists w1,
    TileLoader_new no_libm no_libm no_libm no_format hash7
                   "http://x/{z}/{x}/{y}.png" 0 0 32 0 empty_world
    = (Throw (invalid_argument "Zoom level 32 too high"), w1)
    /\ fs empty_world !! "./gzsatellite/mapscache/7"%string = None
    /\ fs w1 !! "./gzsatellite/mapscache/7"%string = Some Dir.
Proof. eexists. split; [reflexivity | split; vm_compute; reflexivity]. Qed.

Lemma constructor_failure_witness :
  (exists what,
      TileLoader_new no_libm no_libm no_libm no_format hash7
                     "http://x/{z}/{x}/{y}.png" 90 0 2 1 empty_world
      = (Throw (invalid_argument what),
         (create_directories "./gzsatellite/mapscache/7" empty_world).2))
  /\ fs (create_directories "./gzsatellite/mapscache/7" empty_world).2
       !! "./gzsatellite/mapscache/7"%string = Some Dir
  /\ trace (create_directories "./gzsatellite/mapscache/7" empty_world).2
     = trace empty_world ++ [ev_create_directories "./gzsatellite/mapscache/7"]
  /\ (forall q n, fs empty_world !! q = Some n ->
                  fs (create_directories "./gzsatellite/mapscache/7" empty_world).2
                    !! q = Some n)
  /\ (forall q data,
        fs (create_directories "./gzsatellite/mapscache/7" empty_world).2 !! q
        = Some (File data) ->
        fs empty_world !! q = Some (File data)).
Proof.
  apply (constructor_failure_keeps_directory no_libm no_libm no_libm no_format
           hash7 "http://x/{z}/{x}/{y}.png" 90 0 2 1 empty_world).
  - vm_compute. discriminate.
  - right. left. right. reflexivity.
  - reflexivity.
Defined.

(** Latitude 90 is refused and leaves [insideCentreTile] as an exception; a
    longitude that is no number is answered with [false]. *)
Lemma insideCentreTile_witness :
  fails_invalid_argument
    (insideCentreTile no_libm no_libm no_libm no_format grid_loader 90 0)
  /\ outside (-180)%float 180%float nan
  /\ insideCentreTile no_libm no_libm no_libm no_format grid_loader 0 nan
     = Ret false.
Proof.
  split.
  - apply (proj1 (insideCentreTile_propagates no_libm no_libm no_libm
                    no_format grid_loader 90 0)).
    right. left. right. reflexivity.
  - apply (proj2 (insideCentreTile_propagates no_libm no_libm no_libm
                    no_format grid_loader 0 0)).
    + simpl. lia.
    + split; reflexivity.
Defined.

Lemma replaceRegex_single_occurrence_witness :
  replaceRegex (placeholder "x") ("http://a/" ++ occurrence "X" ++ ".png") "12"
  = Ret ("http://a/12.png"%string, 1).
Proof.
  apply (proj1 (replaceRegex_single_occurrence "x" "X" "http://a/" ".png" "12"
                  ltac:(simpl; tauto) eq_refl eq_refl)).
  - reflexivity.
  - simpl. lia.
Defined.

(** A replacement of four digits: [{x}/a] has room for it in the 15
    characters of a short string; [http://a/{x}.png] has not, and the scan
    goes on in the block that was given back. *)
Lemma replaceRegex_longer_replacement_witness :
  replaceRegex (placeholder "x") ("" ++ occurrence "x" ++ "/a") "1000"
  = Ret (("" ++ "1000" ++ "/a")%string, 1)
  /\ replaceRegex (placeholder "x") ("http://a/" ++ occurrence "x" ++ ".png")
                  "1000"
     = Ret (("http://a/" ++ "1000" ++ ".png")%string, 1).
Proof.
  split.
  - apply (replaceRegex_longer_replacement "x" "x" "" "/a" "1000").
    + simpl. tauto.
    + reflexivity.
    + reflexivity.
    + reflexivity.
    + simpl. repeat split; discriminate.
    + left. vm_compute. lia.
  - apply (replaceRegex_longer_replacement "x" "x" "http://a/" ".png" "1000").
    + simpl. tauto.
    + reflexivity.
    + reflexivity.
    + reflexivity.
    + simpl. repeat split; discriminate.
    + right. reflexivity.
Defined.

Lemma start_never_returns_at_INT_MAX_witness :
  stuck (start not_found 100
           (loader "http://x/{z}/{x}/{y}.png" 31 2147483647 0 0)
           empty_world).1.
Proof.
  apply (start_never_returns_at_INT_MAX not_found
           (loader "http://x/{z}/{x}/{y}.png" 31 2147483647 0 0)).
  right. vm_compute. split; discriminate.
Defined.

Lemma start_returns_as_specified_witness :
  resolvable grid_loader warm_world (grid grid_loader)
  /\ (result_of (start one_tile 10 grid_loader warm_world)).1
     = set_tiles grid_loader
         (tile_of grid_loader
            <$> filter (fun i => resolved one_tile grid_loader warm_world i)
                       (grid grid_loader))
  /\ trace (result_of (start one_tile 10 grid_loader warm_world)).2
     = trace warm_world
       ++ (grid grid_loader ≫= tile_events one_tile grid_loader warm_world)
  /\ probes (trace (result_of (start one_tile 10 grid_loader warm_world)).2)
     = probes (trace warm_world) ++ (path_of grid_loader <$> grid grid_loader).
Proof.
  apply (start_returns_as_specified one_tile 10 grid_loader _ warm_world _).
  vm_compute. reflexivity.
Defined.

Lemma start_tiles_and_files_witness :
  NoDup (tiles_ (result_of (start one_tile 10 grid_loader warm_world)).1)
  /\ forall t,
       t ∈ tiles_ (result_of (start one_tile 10 grid_loader warm_world)).1 ->
       (x_ t, y_ t) ∈ grid grid_loader
       /\ 0 <= x_ t <= maxTiles grid_loader
       /\ 0 <= y_ t <= maxTiles grid_loader
       /\ z_ t = to_int (zoom_ grid_loader)
       /\ path_ t = cachedPathForTile grid_loader (x_ t) (y_ t) (z_ t)
       /\ fs_exists (result_of (start one_tile 10 grid_loader warm_world)).2
                    (path_ t)
          = cached grid_loader warm_world (x_ t, y_ t)
            || opened grid_loader warm_world (x_ t, y_ t).
Proof.
  apply (start_tiles_and_files one_tile 10 grid_loader _ warm_world _).
  vm_compute. reflexivity.
Defined.

(** The same run on a disk that takes no file: the tile (1, 1) is listed,
    and nothing is at its path. *)
Example start_lists_unwritten_tile :
  tiles_of_run (start (P := read_only) one_tile 10 grid_loader warm_world)
  = Some [mkMapTile 0 0 2 "./gzsatellite/mapscache/7/x0_y0_z2.jpg";
          mkMapTile 1 1 2 "./gzsatellite/mapscache/7/x1_y1_z2.jpg"]
  /\ fs_exists (start (P := read_only) one_tile 10 grid_loader warm_world).2
               "./gzsatellite/mapscache/7/x1_y1_z2.jpg"
     = false.
Proof. split; vm_compute; reflexivity. Qed.

(** And in a world without the cache directory, on any disk. *)
Example start_without_directory :
  tiles_of_run (start one_tile 10 grid_loader empty_world)
  = Some [mkMapTile 1 1 2 "./gzsatellite/mapscache/7/x1_y1_z2.jpg"]
  /\ fs (start one_tile 10 grid_loader empty_world).2 = ∅.
Proof. split; vm_compute; reflexivity. Qed.

Lemma start_again_witness :
  start one_tile 10 (result_of (start one_tile 10 grid_loader warm_world)).1
        (result_of (start one_tile 10 grid_loader warm_world)).2
  = (Ret (result_of (start one_tile 10 grid_loader warm_world)).1,
     {| fs := fs (result_of (start one_tile 10 grid_loader warm_world)).2;
        trace := trace (result_of (start one_tile 10 grid_loader warm_world)).2
                 ++ (grid grid_loader ≫= fun i =>
                       if cached grid_loader
                            (result_of (start one_tile 10 grid_loader
                                          warm_world)).2 i
                       then [ev_exists (path_of grid_loader i)]
                       else tile_events one_tile grid_loader warm_world i) |}).
Proof.
  apply (start_again one_tile 10 grid_loader _ warm_world _).
  vm_compute. reflexivity.
Defined.

Lemma constructor_establishes_witness :
  (0 <= blocks_ built.1 <= INT_MAX /\ blocks_ built.1 = 1 mod 2 ^ 32)
  /\ (zoom_ built.1 <= 31 /\ ~ refused 0 0 2)
  /\ (is_int (center_tile_x_ built.1) /\ is_int (center_tile_y_ built.1))
  /\ tiles_ built.1 = []
  /\ cache_path_ built.1
     = ("./gzsatellite/mapscache/"
        ++ to_string (hash7 "http://x/{z}/{x}/{y}.png"))%string
  /\ fs built.2 !! cache_path_ built.1 = Some Dir
  /\ trace built.2
     = trace empty_world ++ [ev_create_directories (cache_path_ built.1)]
  /\ (forall q n, fs empty_world !! q = Some n -> fs built.2 !! q = Some n)
  /\ (forall q data, fs built.2 !! q = Some (File data) ->
                     fs empty_world !! q = Some (File data))
  /\ forall x y z,
       cachedPathForTile built.1 x y z
       = (cache_path_ built.1 ++ "/" ++ cachedNameForTile x y z)%string.
Proof.
  apply (constructor_establishes no_libm no_libm no_libm no_format hash7
           "http://x/{z}/{x}/{y}.png" 0 0 2 1 empty_world).
  vm_compute. reflexivity.
Defined.

Lemma latLonToTileCoords_axes_witness :
  exists x y x' y' x'' y'',
    latLonToTileCoords no_libm no_libm no_libm no_format 10 20 3 = Ret (x, y)
    /\ latLonToTileCoords no_libm no_libm no_libm no_format 60 20 3
       = Ret (x', y')
    /\ latLonToTileCoords no_libm no_libm no_libm no_format 10 100 3
       = Ret (x'', y'')
    /\ x' = x /\ y'' = y.
Proof.
  eexists _, _, _, _, _, _.
  split; [reflexivity |]. split; [reflexivity |]. split; [reflexivity |].
  eapply (latLonToTileCoords_axes no_libm no_libm no_libm no_format
            10 60 20 100 3); reflexivity.
Defined.

Lemma latLonToTileCoords_meridians_witness :
  (exists y, latLonToTileCoords no_libm no_libm no_libm no_format 45 (-180) 3
             = Ret (0%float, y))
  /\ (exists x y, latLonToTileCoords no_libm no_libm no_libm no_format 45 0 3
                  = Ret (x, y)
                  /\ x = (Double.of_Z (2 ^ 3)%Z / 2)%float
                  /\ Double.floorZ x = Some (2 ^ 3 / 2)).
Proof.
  apply (latLonToTileCoords_meridians no_libm no_libm no_libm no_format 45 3).
  - lia.
  - intros [H | H]; vm_compute in H; discriminate.
Defined.

Lemma resolution_at_equator_witness :
  resolution flat_cos (loader "http://x/{z}/{x}/{y}.png" 31 0 0 0)
  = (156543.034
     / Double.of_Z (if (zoom_ (loader "http://x/{z}/{x}/{y}.png" 31 0 0 0)
                        =? 31)%Z
                    then INT_MIN
                    else (2 ^ zoom_ (loader "http://x/{z}/{x}/{y}.png"
                                       31 0 0 0))%Z))%float
  /\ (zoom_ (loader "http://x/{z}/{x}/{y}.png" 31 0 0 0) < 30 ->
      zoomToResolution flat_cos 0
        (zoom_ (loader "http://x/{z}/{x}/{y}.png" 31 0 0 0) + 1)
      = (zoomToResolution flat_cos 0
           (zoom_ (loader "http://x/{z}/{x}/{y}.png" 31 0 0 0)) / 2)%float)
  /\ (zoom_ (loader "http://x/{z}/{x}/{y}.png" 31 0 0 0) = 31 ->
      (resolution flat_cos (loader "http://x/{z}/{x}/{y}.png" 31 0 0 0)
       <? 0)%float = true).
Proof.
  apply (resolution_at_equator flat_cos
           (loader "http://x/{z}/{x}/{y}.png" 31 0 0 0)).
  - reflexivity.
  - reflexivity.
  - simpl. lia.
Defined.

Lemma uriForTile_fills_template_witness :
  uriForTile (loader "http://{s}.x/{z}/{X}/{y}.png" 7 0 0 0) 100 5
  = Ret (render
           (fill "z" (to_string
                        (zoom_ (loader "http://{s}.x/{z}/{X}/{y}.png" 7 0 0 0)))
              <$> (fill "y" (to_string 5)
                     <$> (fill "x" (to_string 100)
                            <$> [Text "http://"; Hole "s"; Text ".x/";
                                 Hole "z"; Text "/"; Hole "X"; Text "/";
                                 Hole "y"; Text ".png"])))).
Proof.
  apply (uriForTile_fills_template
           (loader "http://{s}.x/{z}/{X}/{y}.png" 7 0 0 0) 100 5
           [Text "http://"; Hole "s"; Text ".x/"; Hole "z"; Text "/";
            Hole "X"; Text "/"; Hole "y"; Text ".png"]).
  - reflexivity.
  - repeat constructor; discriminate.
  - vm_compute. lia.
  - vm_compute. lia.
  - vm_compute. lia.
  - lia.
  - lia.
  - simpl. lia.
Defined.

Lemma insideCentreTile_nan_witness :
  insideCentreTile no_libm no_libm no_libm no_format
    (loader "http://x/{z}/{x}/{y}.png" 2 1 1 1) 0 nan
  = Ret false.
Proof.
  apply (insideCentreTile_nan no_libm no_libm no_libm no_format
           (loader "http://x/{z}/{x}/{y}.png" 2 1 1 1) 0).
  - simpl. lia.
  - intros [H | H]; vm_compute in H; discriminate.
Defined.

End Examples.
